(** * Formatting targets of [src/core/format.hpp]

    A shallow embedding of [format_target] and its subtypes
    ([format_to_buffer], [format_buffer], [format_to_fixed],
    [format_to_fixed_z]) together with the [fmt::detail::buffer<char>]
    primitives they are built on.

    Conventions.
    - A [char] is a [byte]; ['\0'] is ["000"%byte].
    - A pointer is a block identifier and an offset into the block; the
      memory is a finite map from block identifiers to byte arrays.  An access
      outside a block is undefined behaviour in the source, and [None] here.
    - Every operation runs in the [option] monad: [None] is undefined
      behaviour, or a loop that does not finish.
    - A [size_t] that is the size or the capacity of a live array is a [nat];
      sums of two such sizes stay far below [2^64] and are ordinary sums.  A
      [size_t] that a caller hands in (a reservation request, the count a
      writer reports, a pointer difference) goes through [to_size_t], which
      wraps at [2^64].
    - [uint8_t flags] is a [Z] and its tests are [Z.land]. *)

From stdpp Require Import base option list gmap fin_maps.
From Stdlib Require Import ZArith Lia Strings.Byte.

Local Open Scope nat_scope.

(** ** Memory *)

Module Mem.

Definition block := nat.

Record pointer := Ptr { blk : block; off : nat }.

#[global] Instance pointer_eq_dec : EqDecision pointer.
Proof. solve_decision. Defined.

Abbreviation memory := (gmap block (list byte)).

(** [p + n] *)
Definition ptr_add (p : pointer) (n : nat) : pointer :=
  Ptr (blk p) (off p + n).

(** [p - q], a [ptrdiff_t] *)
Definition ptr_diff (p q : pointer) : Z :=
  Z.of_nat (off p) - Z.of_nat (off q).

(** Conversion of an integer to [size_t]. *)
Definition to_size_t (z : Z) : nat := Z.to_nat (z mod 2 ^ 64).

(** [a + b] on [size_t] operands. *)
Definition size_add (a b : nat) : nat := to_size_t (Z.of_nat a + Z.of_nat b).

(** [*p] *)
Definition load (m : memory) (p : pointer) : option byte :=
  l ← m !! blk p; l !! off p.

(** The [n] bytes at [p]. *)
Definition load_bytes (m : memory) (p : pointer) (n : nat) : option (list byte) :=
  l ← m !! blk p;
  if decide (off p + n ≤ length l) then Some (take n (drop (off p) l)) else None.

(** [*p = c] *)
Definition store (m : memory) (p : pointer) (c : byte) : option memory :=
  l ← m !! blk p;
  if decide (off p < length l) then Some (<[blk p := <[off p := c]> l]> m) else None.

(** Copy of [bs] to [p], as [std::uninitialized_copy_n] does. *)
Definition store_bytes (m : memory) (p : pointer) (bs : list byte) : option memory :=
  l ← m !! blk p;
  if decide (off p + length bs ≤ length l)
  then Some (<[blk p := take (off p) l ++ bs ++ drop (off p + length bs) l]> m)
  else None.

(** [n] bytes at [p] lie inside a block of [m]. *)
Definition valid_range (m : memory) (p : pointer) (n : nat) : Prop :=
  ∃ l, m !! blk p = Some l ∧ off p + n ≤ length l.

End Mem.
Export Mem.

(** ** The objects

    [fmt::detail::buffer<char>] keeps a data pointer, a size and a capacity.
    A [format_target] refers to one such buffer ([target]) and carries the
    flag byte.  The buffer is either a [fmt::basic_memory_buffer] (for
    [format_to_buffer] and [format_buffer]) or the private base subobject of a
    [format_to_fixed_base]; [vptr] records which, as it selects the [grow]
    override.  The members of the two derived classes are fields of the same
    record; those of the class the object is not an instance of are unused. *)

Record buffer := Buffer {
  ptr_ : pointer;
  size_ : nat;
  capacity_ : nat
}.

Inductive buffer_class := basic_memory_buffer | format_to_fixed_base_class.

Record format_target := FormatTarget {
  target : buffer;          (* fmt::detail::buffer<char> &target *)
  vptr : buffer_class;      (* dynamic type of [target] *)
  flags : Z;                (* uint8_t flags *)
  buffer_ptr : pointer;     (* format_to_fixed_base: char * const buffer_ptr *)
  buffer_size : nat;        (* format_to_fixed_base: const size_t buffer_size *)
  discard : pointer;        (* format_to_fixed_base: char discard[32] *)
  store_ : pointer;         (* basic_memory_buffer: T store_[SIZE] *)
  mem : memory
}.

Definition with_target (b : buffer) (t : format_target) : format_target :=
  FormatTarget b (vptr t) (flags t) (buffer_ptr t) (buffer_size t) (discard t) (store_ t) (mem t).

Definition with_flags (f : Z) (t : format_target) : format_target :=
  FormatTarget (target t) (vptr t) f (buffer_ptr t) (buffer_size t) (discard t) (store_ t) (mem t).

Definition with_mem (m : memory) (t : format_target) : format_target :=
  FormatTarget (target t) (vptr t) (flags t) (buffer_ptr t) (buffer_size t) (discard t) (store_ t) m.

(** [enum { FL_FIXED = 1, FL_OVERFLOW = 2 }] *)
Definition FL_FIXED : Z := 1.
Definition FL_OVERFLOW : Z := 2.

(** [sizeof(this->discard)] *)
Definition discard_size : nat := 32.

(** [(flags & bit) != 0] *)
Definition flag_set (f bit : Z) : bool := negb (Z.land f bit =? 0)%Z.

(** ** What the embedding leaves open

    The value of a byte that was allocated and not yet written, and the
    template engine: the type of templates, the type of argument packs, and
    the pieces of output the engine produces for a template and its
    arguments. *)

Class Engine := {
  indeterminate : byte;
  fmt_string : Type;
  fmt_args : Type;
  render : fmt_string → fmt_args → list (list byte)
}.

(** ** [fmt::detail::buffer<char>] and its two [grow] overrides *)

Module Fmt.
Section Engine.

Context {E : Engine}.

(** Modelled from the spec: [fmt::inline_buffer_size], the number of bytes
    a [fmt::memory_buffer] holds inline (3rdparty/fmt is not among the
    sources). *)
Definition inline_buffer_size : nat := 500.

(** Modelled from the spec: [buffer::set(buf_data, buf_capacity)] of
    3rdparty/fmt (not among the sources) replaces the data pointer and the
    capacity. *)
Definition set (buf_data : pointer) (buf_capacity : nat) (t : format_target) : format_target :=
  with_target (Buffer buf_data (size_ (target t)) buf_capacity) t.

(** Modelled from the spec: [buffer::clear()] of 3rdparty/fmt (not among the
    sources) resets the logical size to zero and retains the capacity. *)
Definition clear (t : format_target) : format_target :=
  with_target (Buffer (ptr_ (target t)) 0 (capacity_ (target t))) t.

(** Assignment to [size_]. *)
Definition set_size (n : nat) (t : format_target) : format_target :=
  with_target (Buffer (ptr_ (target t)) n (capacity_ (target t))) t.

(** Modelled from the spec: [format_to_fixed_base::grow] is declared in
    format.hpp and defined in format.cpp, which is not among the sources.
    The spec (sections 3 and 4.3): a write that would go past
    [buffer_capacity] first fills what is left of the caller's region; once
    the region is full, growth is satisfied by redirecting the excess into
    the private discard region and [OVERFLOWED] is set.  So [grow] acts only
    when the buffer is full: it restarts the buffer on [discard]. *)
Definition fixed_grow (capacity : nat) (t : format_target) : option format_target :=
  if decide (size_ (target t) = capacity_ (target t))
  then Some (with_flags (Z.lor (flags t) FL_OVERFLOW) (set (discard t) discard_size (clear t)))
  else Some t.

(** Modelled from the spec: [fmt::basic_memory_buffer::grow] is in
    3rdparty/fmt/format.h, which is not among the sources.  The spec
    (section 2) takes the growable byte buffer as a reallocating byte store:
    a larger array is allocated (at least the requested size, at least one
    and a half times the old capacity), the [size_] stored bytes are copied
    and the old array is released unless it is the inline [store_].
    Allocation failure is out of scope (spec, section 4.2). *)
Definition memory_buffer_grow (size : nat) (t : format_target) : option format_target :=
  let old_capacity := capacity_ (target t) in
  let new_capacity := old_capacity + old_capacity / 2 in
  let new_capacity := if decide (new_capacity < size) then size else new_capacity in
  let old_data := ptr_ (target t) in
  let new_data := Ptr (fresh (dom (mem t))) 0 in
  stored ← load_bytes (mem t) old_data (size_ (target t));
  m ← store_bytes (<[blk new_data := replicate new_capacity indeterminate]> (mem t)) new_data stored;
  let m := if decide (old_data = store_ t) then m else delete (blk old_data) m in
  Some (with_mem m (set new_data new_capacity t)).

(** The virtual call [grow(capacity)]. *)
Definition grow (capacity : nat) (t : format_target) : option format_target :=
  match vptr t with
  | basic_memory_buffer => memory_buffer_grow capacity t
  | format_to_fixed_base_class => fixed_grow capacity t
  end.

(** Modelled from the spec: [buffer::try_reserve(new_capacity)] of
    3rdparty/fmt (not among the sources), the spec's [reserve]:
    [if (new_capacity > capacity_) grow(new_capacity)]. *)
Definition try_reserve (new_capacity : nat) (t : format_target) : option format_target :=
  if decide (capacity_ (target t) < new_capacity) then grow new_capacity t else Some t.

(** Modelled from the spec: [buffer::try_resize(count)] of 3rdparty/fmt (not
    among the sources), which truncates or extends the logical length:
    [try_reserve(count); size_ = count <= capacity_ ? count : capacity_]. *)
Definition try_resize (count : nat) (t : format_target) : option format_target :=
  t ← try_reserve count t;
  Some (set_size (if decide (count ≤ capacity_ (target t)) then count else capacity_ (target t)) t).

(** Modelled from the spec: [buffer::push_back(value)] of 3rdparty/fmt (not
    among the sources) appends one byte:
    [try_reserve(size_ + 1); ptr_[size_++] = value]. *)
Definition push_back (value : byte) (t : format_target) : option format_target :=
  t ← try_reserve (size_ (target t) + 1) t;
  m ← store (mem t) (ptr_add (ptr_ (target t)) (size_ (target t))) value;
  Some (with_mem m (set_size (size_ (target t) + 1) t)).

(** Modelled from the spec: the loop of [buffer::append(begin, end)] of
    3rdparty/fmt (not among the sources), the spec's [append]: while input
    is left, reserve room for all of it, copy as much as the free capacity
    takes, go on with the rest.  [fuel] bounds the number of rounds. *)
Fixpoint append_loop (fuel : nat) (input : list byte) (t : format_target) : option format_target :=
  match input with
  | [] => Some t
  | _ :: _ =>
    match fuel with
    | O => None
    | S fuel =>
      let count := length input in
      t ← try_reserve (size_ (target t) + count) t;
      let free_cap := capacity_ (target t) - size_ (target t) in
      let count := if decide (free_cap < count) then free_cap else count in
      m ← store_bytes (mem t) (ptr_add (ptr_ (target t)) (size_ (target t))) (take count input);
      append_loop fuel (drop count input) (with_mem m (set_size (size_ (target t) + count) t))
    end
  end.

(** Modelled from the spec: [buffer::append(begin, end)].  A round that
    copies nothing would repeat for ever, so when the loop ends it ends
    within [length input] rounds. *)
Definition append (input : list byte) (t : format_target) : option format_target :=
  append_loop (length input) input t.

(** Modelled from the spec: the output side of [fmt::detail::vformat_to]
    (3rdparty/fmt/format.h, not among the sources).  The spec (section 4.1)
    has a render deliver its bytes directly into the sink; the engine delivers
    them piece by piece through the buffer's [append]. *)
Fixpoint deliver (pieces : list (list byte)) (t : format_target) : option format_target :=
  match pieces with
  | [] => Some t
  | piece :: pieces => t ← append piece t; deliver pieces t
  end.

(** Modelled from the spec: [fmt::detail::vformat_to] is in
    3rdparty/fmt/format.h, which is not among the sources.  The spec
    (sections 1 and 4.1) takes the engine as an opaque capability that turns
    a template and its arguments into bytes and writes them to the sink;
    [render] gives the pieces it writes. *)
Definition vformat_to (fmtstr : fmt_string) (args : fmt_args) (t : format_target)
    : option format_target :=
  deliver (render fmtstr args) t.

End Engine.
End Fmt.

(** ** [format_target] and its subtypes (format.hpp) *)

Section Target.

Context {E : Engine}.

(** [bool has_overflowed() const] *)
Definition has_overflowed (t : format_target) : bool :=
  flag_set (flags t) FL_OVERFLOW.

(** [size_t format_to_fixed_base::written() const] *)
Definition written (t : format_target) : nat :=
  if flag_set (flags t) FL_OVERFLOW then buffer_size t else size_ (target t).

(** [const char *format_target::data() const] *)
Definition data (t : format_target) : pointer :=
  if flag_set (flags t) FL_FIXED then buffer_ptr t else ptr_ (target t).

(** [size_t format_target::size() const] *)
Definition size (t : format_target) : nat :=
  if flag_set (flags t) FL_FIXED then written t else size_ (target t).

(** [char *begin()] and [char *end()] *)
Definition begin (t : format_target) : pointer := data t.
Definition end_ (t : format_target) : pointer := ptr_add (data t) (size t).

(** [void vformat(fmt::string_view fmtstr, fmt::format_args args)] *)
Definition vformat (fmtstr : fmt_string) (args : fmt_args) (t : format_target) : option format_target :=
  if has_overflowed t then Some t
  else Fmt.vformat_to fmtstr args t.

(** [void format(fmt::format_string<T...> fmtstr, T&&... args)] *)
Definition format (fmtstr : fmt_string) (args : fmt_args) (t : format_target) : option format_target :=
  if has_overflowed t then Some t
  else Fmt.vformat_to fmtstr args t.

(** [void push_back(char c)] *)
Definition push_back (c : byte) (t : format_target) : option format_target :=
  if has_overflowed t then Some t
  else Fmt.push_back c t.

(** [void append(const U* begin, const U* end)]; the range is given by the
    bytes it holds. *)
Definition append (range : list byte) (t : format_target) : option format_target :=
  if has_overflowed t then Some t
  else Fmt.append range t.

(** [void append(std::string_view str)] *)
Definition append_sv (str : list byte) (t : format_target) : option format_target :=
  append str t.

(** A writer handed to a reserve-and-write operation is given by what it
    does with the region it receives: from the number of bytes of the region,
    the bytes it stores at the start of the region and the count it reports
    (for the pointer form: how far the returned pointer is from [buf]). *)
Definition writer := nat → list byte * nat.

(** [p - 1]; [data + capacity - 1] lies before [data] only for an empty
    buffer at offset zero, where it is read as [data]: the test
    [last > buf] fails either way. *)
Definition ptr_pred (p : pointer) : pointer := Ptr (blk p) (off p - 1).

(** [void append_ptr_last_func(size_t to_reserve, F func)] *)
Definition append_ptr_last_func (to_reserve : nat) (func : writer) (t : format_target)
    : option format_target :=
  t ← Fmt.try_reserve (size_add (size_ (target t)) to_reserve) t;
  let buf := ptr_add (ptr_ (target t)) (size_ (target t)) in
  let last := ptr_pred (ptr_add (ptr_ (target t)) (capacity_ (target t))) in
  if decide (off buf < off last) then
    let '(stored, used) := func (Z.to_nat (ptr_diff last buf)) in
    m ← store_bytes (mem t) buf stored;
    let result := ptr_add buf used in
    Fmt.try_resize (to_size_t (ptr_diff result (ptr_ (target t)))) (with_mem m t)
  else Some t.

(** [void append_span_func(size_t to_reserve, F func)] *)
Definition append_span_func (to_reserve : nat) (func : writer) (t : format_target)
    : option format_target :=
  t ← Fmt.try_reserve (size_add (size_ (target t)) to_reserve) t;
  let size := size_ (target t) in
  let capacity := capacity_ (target t) in
  if decide (size = capacity) then Some t
  else
    let '(stored, written) := func (capacity - size) in
    m ← store_bytes (mem t) (ptr_add (ptr_ (target t)) size) stored;
    Fmt.try_resize (size_add size written) (with_mem m t).

(** Modelled from the spec: [format_to_fixed_base::restore_size_impl] is
    declared in format.hpp and defined in format.cpp, which is not among the
    sources.  The spec (section 4.3): [restore_size(n)] with
    [n ≤ buffer_capacity] returns to [NORMAL] and sets [written = n]; so the
    buffer goes back to the caller's region, [OVERFLOWED] is cleared and the
    logical length becomes [n]. *)
Definition restore_size_impl (n : nat) (t : format_target) : option format_target :=
  let t :=
    if flag_set (flags t) FL_OVERFLOW
    then with_flags (Z.land (flags t) (Z.lnot FL_OVERFLOW)) (Fmt.set (buffer_ptr t) (buffer_size t) t)
    else t in
  Fmt.try_resize n t.

(** Modelled from the spec: [format_target::restore_size] is declared in
    format.hpp and defined in format.cpp, which is not among the sources.
    The spec (sections 3 and 4.1): truncate back to a previously observed
    size; a buffer-backed target truncates the buffer's logical length
    without releasing capacity, a fixed one goes through
    [restore_size_impl]. *)
Definition restore_size (n : nat) (t : format_target) : option format_target :=
  if flag_set (flags t) FL_FIXED then restore_size_impl n t
  else Fmt.try_resize n t.

(** *** Constructors *)

Definition null : pointer := Ptr 0 0.

(** [format_to_buffer(fmt::basic_memory_buffer<char, SIZE, Allocator> &buffer)]:
    [format_target(buffer, 0)].  The memory buffer is given by its base
    fields and its inline array. *)
Definition format_to_buffer (buffer : buffer) (store : pointer) (m : memory) : format_target :=
  FormatTarget buffer basic_memory_buffer 0 null 0 null store m.

(** [format_buffer()]: the built-in [fmt::memory_buffer] starts empty on its
    inline array. *)
Definition format_buffer (m : memory) : format_target :=
  let store := Ptr (fresh (dom m)) 0 in
  format_to_buffer (Buffer store 0 Fmt.inline_buffer_size) store
    (<[blk store := replicate Fmt.inline_buffer_size indeterminate]> m).

(** [format_to_fixed_base(char *dst, size_t size, uint flags)]:
    [buffer(dst, 0, size), format_target(this->base_buffer(), flags),
    buffer_ptr(dst), buffer_size(size)]; the object brings its [discard]
    array, and [flags] narrows to [uint8_t]. *)
Definition format_to_fixed_base (dst : pointer) (size : nat) (flags : Z) (m : memory)
    : format_target :=
  let discard := Ptr (fresh (dom m)) 0 in
  FormatTarget (Buffer dst 0 size) format_to_fixed_base_class (flags mod 256)
    dst size discard null
    (<[blk discard := replicate discard_size indeterminate]> m).

(** [format_to_fixed(char *dst, size_t size)] *)
Definition format_to_fixed (dst : pointer) (size : nat) (m : memory) : format_target :=
  format_to_fixed_base dst size FL_FIXED m.

(** [struct format_to_fixed_z]: a [format_to_fixed_base] and [initial_dst]. *)
Record format_to_fixed_z_t := FixedZ {
  base :> format_target;
  initial_dst : pointer
}.

(** [format_to_fixed_z(char *dst, const char *last)] *)
Definition format_to_fixed_z (dst last : pointer) (m : memory) : format_to_fixed_z_t :=
  FixedZ (format_to_fixed_base dst (to_size_t (ptr_diff last dst)) FL_FIXED m) dst.

(** [char *finalise()] *)
Definition finalise (z : format_to_fixed_z_t) : option (pointer * format_to_fixed_z_t) :=
  let written := written z in
  m ← store (mem z) (ptr_add (initial_dst z) written) "000"%byte;
  Some (ptr_add (initial_dst z) written, FixedZ (with_mem m z) (initial_dst z)).

(** *** [format_buffer] *)

(** The members of [format_buffer] that hide those of [format_target]
    read the built-in buffer directly. *)
Definition format_buffer_begin (t : format_target) : pointer := ptr_ (target t).
Definition format_buffer_end (t : format_target) : pointer :=
  ptr_add (ptr_ (target t)) (size_ (target t)).
Definition format_buffer_size (t : format_target) : nat := size_ (target t).
Definition format_buffer_capacity (t : format_target) : nat := capacity_ (target t).
Definition format_buffer_data (t : format_target) : pointer := ptr_ (target t).

(** [void clear()] *)
Definition format_buffer_clear (t : format_target) : option format_target :=
  Some (Fmt.clear t).

(** [std::string to_string() const] *)
Definition to_string (t : format_target) : option (list byte) :=
  load_bytes (mem t) (ptr_ (target t)) (size_ (target t)).

(** [const char *c_str()] *)
Definition c_str (t : format_target) : option (pointer * format_target) :=
  t ← (if decide (format_buffer_size t = format_buffer_capacity t)
       then Fmt.try_reserve (format_buffer_capacity t + 1) t
       else Some t);
  m ← store (mem t) (format_buffer_end t) "000"%byte;
  Some (format_buffer_data (with_mem m t), with_mem m t).

(** *** Sequences of operations *)

(** The bytes from [data()] to [end()]. *)
Definition contents (t : format_target) : option (list byte) :=
  load_bytes (mem t) (data t) (size t).

(** The writes that hand bytes to the target. *)
Inductive write :=
| w_append (range : list byte)
| w_append_sv (str : list byte)
| w_push_back (c : byte)
| w_format (fmtstr : fmt_string) (args : fmt_args)
| w_vformat (fmtstr : fmt_string) (args : fmt_args).

Definition run_write (w : write) (t : format_target) : option format_target :=
  match w with
  | w_append range => append range t
  | w_append_sv str => append_sv str t
  | w_push_back c => push_back c t
  | w_format fmtstr args => format fmtstr args t
  | w_vformat fmtstr args => vformat fmtstr args t
  end.

(** The bytes a write hands over. *)
Definition write_bytes (w : write) : list byte :=
  match w with
  | w_append range => range
  | w_append_sv str => str
  | w_push_back c => [c]
  | w_format fmtstr args => concat (render fmtstr args)
  | w_vformat fmtstr args => concat (render fmtstr args)
  end.

(** The operations of a [format_target] that change it. *)
Inductive op :=
| op_write (w : write)
| op_append_ptr_last_func (to_reserve : nat) (func : writer)
| op_append_span_func (to_reserve : nat) (func : writer)
| op_restore_size (n : nat).

Definition run_op (o : op) (t : format_target) : option format_target :=
  match o with
  | op_write w => run_write w t
  | op_append_ptr_last_func to_reserve func => append_ptr_last_func to_reserve func t
  | op_append_span_func to_reserve func => append_span_func to_reserve func t
  | op_restore_size n => restore_size n t
  end.

(** The operations of a [format_buffer]: those of the target, [clear()] and
    [c_str()] (whose pointer is dropped here). *)
Inductive buffer_op :=
| bop_target (o : op)
| bop_clear
| bop_c_str.

Definition run_buffer_op (o : buffer_op) (t : format_target) : option format_target :=
  match o with
  | bop_target o => run_op o t
  | bop_clear => format_buffer_clear t
  | bop_c_str => snd <$> c_str t
  end.

(** Operations one after the other. *)
Fixpoint run_all {O : Type} (run : O → format_target → option format_target)
    (os : list O) (t : format_target) : option format_target :=
  match os with
  | [] => Some t
  | o :: os => t ← run o t; run_all run os t
  end.

Definition run_writes := run_all run_write.
Definition run_ops := run_all run_op.
Definition run_buffer_ops := run_all run_buffer_op.

(** The bytes a sequence of writes hands over, in order. *)
Definition written_bytes (ws : list write) : list byte := concat (map write_bytes ws).

(** Writes to a [format_to_fixed_z], which inherits them. *)
Definition run_writes_z (ws : list write) (z : format_to_fixed_z_t)
    : option format_to_fixed_z_t :=
  t ← run_writes ws (base z); Some (FixedZ t (initial_dst z)).

End Target.


(** ** Well-formed targets

    What the constructors establish and every operation keeps. *)

(** A [format_to_fixed] or [format_to_fixed_z]: the caller's region and the
    discard array are live and apart; the buffer sits on the caller's region
    until it overflows and on the discard array afterwards. *)
Record fixed_wf (t : format_target) : Prop := FixedWf {
  fixed_class : vptr t = format_to_fixed_base_class;
  fixed_flag : flag_set (flags t) FL_FIXED = true;
  fixed_region : valid_range (mem t) (buffer_ptr t) (buffer_size t);
  fixed_discard : valid_range (mem t) (discard t) discard_size;
  fixed_apart : blk (buffer_ptr t) ≠ blk (discard t);
  fixed_target :
    if has_overflowed t
    then ptr_ (target t) = discard t ∧ capacity_ (target t) = discard_size ∧
         size_ (target t) ≤ discard_size
    else ptr_ (target t) = buffer_ptr t ∧ capacity_ (target t) = buffer_size t ∧
         size_ (target t) ≤ buffer_size t
}.

(** A [format_to_buffer] or [format_buffer]: no flag is set and the buffer
    sits on a live array that holds its capacity. *)
Record buffer_wf (t : format_target) : Prop := BufferWf {
  buffer_class_ok : vptr t = basic_memory_buffer;
  buffer_flags : flags t = 0%Z;
  buffer_range : valid_range (mem t) (ptr_ (target t)) (capacity_ (target t));
  buffer_fill : size_ (target t) ≤ capacity_ (target t)
}.

Definition target_wf (t : format_target) : Prop :=
  match vptr t with
  | basic_memory_buffer => buffer_wf t
  | format_to_fixed_base_class => fixed_wf t
  end.

(** The members an operation never assigns. *)
Definition same_object (t t' : format_target) : Prop :=
  vptr t' = vptr t ∧ buffer_ptr t' = buffer_ptr t ∧ buffer_size t' = buffer_size t ∧
  discard t' = discard t ∧ store_ t' = store_ t.

(** Every range that was live still is. *)
Definition same_shape (m m' : memory) : Prop :=
  ∀ p n, valid_range m p n → valid_range m' p n.

(** What a caller can see of a target. *)
Definition observe (t : format_target) : nat * bool * option (list byte) :=
  (size t, has_overflowed t, contents t).

(** A writer that stays inside the span it is given. *)
Definition span_writer_ok (func : writer) : Prop :=
  ∀ room, length (fst (func room)) ≤ room.

(** A writer that stays inside [buf .. last], [last] included. *)
Definition ptr_last_writer_ok (func : writer) : Prop :=
  ∀ room, length (fst (func room)) ≤ room + 1.

(** An operation whose writer, if it has one, stays inside its region. *)
Definition op_ok `{Engine} (o : op) : Prop :=
  match o with
  | op_append_ptr_last_func _ func => ptr_last_writer_ok func
  | op_append_span_func _ func => span_writer_ok func
  | op_write _ | op_restore_size _ => True
  end.

(** A write call: any operation but [restore_size], with a writer that stays
    inside its region. *)
Definition write_call_ok `{Engine} (o : op) : Prop :=
  match o with
  | op_restore_size _ => False
  | _ => op_ok o
  end.


(** What a fixed target [t] that showed [cs] looks like as [t'], after
    [input] was written to it. *)
Definition fixed_post (cs input : list byte) (t t' : format_target) : Prop :=
  fixed_wf t' ∧ same_object t t' ∧ same_shape (mem t) (mem t') ∧
  contents t' = Some (take (buffer_size t) (cs ++ input)) ∧
  has_overflowed t' =
    has_overflowed t || bool_decide (buffer_size t < length cs + length input).

(** The same for a buffer-backed target. *)
Definition buffer_post (cs input : list byte) (t t' : format_target) : Prop :=
  buffer_wf t' ∧ same_object t t' ∧ contents t' = Some (cs ++ input).

(** ** Concrete targets

    A small engine and a few targets on which the statements below are
    evaluated. *)

Module Example.

(** The engine renders a template and its arguments as two pieces: the bytes
    of the template, then the bytes of the arguments. *)
Definition engine : Engine :=
  {| indeterminate := "?"%byte;
     fmt_string := list byte;
     fmt_args := list byte;
     render := λ fmtstr args, [fmtstr; args] |}.

#[local] Existing Instance engine.

Definition hello_world : list byte :=
  ["h"; "e"; "l"; "l"; "o"; " "; "w"; "o"; "r"; "l"; "d"]%byte.

(** The caller's array: six bytes in block 1. *)
Definition caller_memory : memory := {[ 1 := replicate 6 "."%byte ]}.

Definition dst : pointer := Ptr 1 0.

(** What an operation returns when it returns. *)
Definition after (result : option format_target) : format_target :=
  default (format_buffer ∅) result.

(** [format_to_fixed(dst, 5)] *)
Definition fixed5 : format_target := format_to_fixed dst 5 caller_memory.

(** The same after [append("hello world")]: it has overflowed. *)
Definition overflowed : format_target :=
  after (run_writes [w_append hello_world] fixed5).

(** A [fmt::memory_buffer] that is exactly full: six bytes of six. *)
Definition full_buffer : format_target :=
  format_to_buffer (Buffer dst 6 6) dst caller_memory.

(** A span writer that stores one byte when there is room for it. *)
Definition one_byte : writer :=
  λ room, (take room ["z"%byte], length (take room ["z"%byte])).

(** A pointer writer that stores one byte and a terminator, and returns the
    address of the terminator. *)
Definition one_byte_z : writer :=
  λ room, (take (room + 1) ["z"%byte; "000"%byte], room `min` 1).

(** Five bytes in three writes: ["hi"], ["!!"], ['!']. *)
Definition exact_fit : list write :=
  [w_append ["h"; "i"]%byte; w_append_sv ["!"; "!"]%byte; w_push_back "!"%byte].

Definition some_ops : list op :=
  [op_write (w_append hello_world);
   op_append_span_func 1 one_byte;
   op_restore_size 3;
   op_write (w_format ["a"; "b"]%byte ["c"]%byte);
   op_append_ptr_last_func 4 one_byte_z].

Definition some_write_calls : list op :=
  [op_write (w_append hello_world);
   op_append_span_func 1 one_byte;
   op_write (w_format ["a"; "b"]%byte ["c"]%byte);
   op_append_ptr_last_func 4 one_byte_z;
   op_write (w_push_back "!"%byte)].


(** [fixed5] after the five bytes of [exact_fit]: full, not overflowed. *)
Definition full_fixed : format_target := after (run_writes exact_fit fixed5).

(** [fixed5] after four bytes: one byte free. *)
Definition one_left : format_target :=
  after (run_writes [w_append ["h"; "i"; "!"; "!"]%byte] fixed5).

(** [format_to_fixed_z(dst, dst + 5)] on the caller's six bytes. *)
Definition fixed_z5 : format_to_fixed_z_t := format_to_fixed_z dst (Ptr 1 5) caller_memory.

(** A [fmt::memory_buffer] with one byte of six in use. *)
Definition roomy_buffer : format_target :=
  format_to_buffer (Buffer dst 1 6) dst caller_memory.

(** Writes that hand over no byte. *)
Definition empty_writes : list write := [w_append []; w_format [] []; w_append_sv []].

(** The five bytes of [exact_fit] in one write. *)
Definition one_write : list write := [w_append ["h"; "i"; "!"; "!"; "!"]%byte].

(** A span writer with ["hello world"] to store, which stores what fits
    into the span it is given. *)
Definition hello_writer : writer :=
  λ room, (take room hello_world, length (take room hello_world)).

(** A span writer that stores nothing and reports no byte. *)
Definition no_byte : writer := λ _, ([], 0).

(** The five bytes of [exact_fit], then [append_span_func(1, no_byte)]. *)
Definition fit_then_reserve : list op :=
  map op_write exact_fit ++ [op_append_span_func 1 no_byte].

(** The calls of a callback body. *)
Definition some_calls : list (list byte * list byte) :=
  [(["a"; "b"]%byte, ["c"]%byte); ([], ["d"; "e"; "f"; "g"]%byte)].

End Example.

(** ** The callback adapter (format.hpp, [format_lambda_output] and
    [format_lambda_wrapper]) and further notions *)

Section LambdaAdapter.

Context {E : Engine}.

(** Modelled from the spec: [fmt::format_to] on a
    [fmt::format_context::iterator] is in 3rdparty/fmt, which is not among
    the sources.  The spec (section 4.5) has the cursor advance on the sink
    of the outer render: the iterator appends to the buffer of that sink, so
    it is given by the sink, and [format_to] renders into it with no test of
    the overflow flag. *)
Definition format_to (iter : format_target) (fmtstr : fmt_string) (args : fmt_args)
    : option format_target :=
  Fmt.vformat_to fmtstr args iter.

(** [struct format_lambda_output]: the iterator. *)
Record format_lambda_output := LambdaOutput { iter : format_target }.

(** [void format_lambda_output::format(fmtstr, args...)]:
    [this->iter = fmt::format_to(this->iter, fmtstr, args...)]. *)
Definition lambda_output_format (fmtstr : fmt_string) (args : fmt_args)
    (output : format_lambda_output) : option format_lambda_output :=
  it ← format_to (iter output) fmtstr args; Some (LambdaOutput it).

(** [struct format_lambda_wrapper<F>]: the callable [lm], which takes the
    output by reference. *)
Record format_lambda_wrapper := LambdaWrapper {
  lm : format_lambda_output → option format_lambda_output
}.

(** [iterator format_lambda_wrapper::execute(iterator iter) const] *)
Definition execute (w : format_lambda_wrapper) (it : format_target) : option format_target :=
  output ← lm w (LambdaOutput it); Some (iter output).

(** [auto format_lambda(F func)]: from a callable on an output and arguments,
    the callable on the arguments that yields the wrapper. *)
Definition format_lambda {A : Type}
    (func : format_lambda_output → A → option format_lambda_output)
    : A → format_lambda_wrapper :=
  λ args, LambdaWrapper (λ output, func output args).

(** A callback body that issues one [output.format] call per entry. *)
Fixpoint format_each (calls : list (fmt_string * fmt_args)) (output : format_lambda_output)
    : option format_lambda_output :=
  match calls with
  | [] => Some output
  | (fmtstr, args) :: calls =>
      output ← lambda_output_format fmtstr args output; format_each calls output
  end.

End LambdaAdapter.

(** Every byte outside the [n] bytes at [p] and outside block [d] reads in
    [m'] as it does in [m]. *)
Definition changes_within (p : pointer) (n : nat) (d : block) (m m' : memory) : Prop :=
  ∀ q, blk q ≠ d → (blk q ≠ blk p ∨ off q < off p ∨ off p + n ≤ off q) →
       load m' q = load m q.

(** A writer that reports the number of bytes it stored, never more than
    the room it was given. *)
Definition exact_writer (func : writer) : Prop :=
  ∀ room, snd (func room) = length (fst (func room)) ∧ snd (func room) ≤ room.

(** A buffer-backed target [t'] that is [t] with [n] more bytes, in place:
    same array, same capacity, and the rest of the memory as it was. *)
Definition grown_in_place (n : nat) (t t' : format_target) : Prop :=
  buffer_wf t' ∧
  target t' = Buffer (ptr_ (target t)) (size_ (target t) + n) (capacity_ (target t)) ∧
  delete (blk (ptr_ (target t))) (mem t') = delete (blk (ptr_ (target t))) (mem t).

(** A well-formed [format_to_fixed_z]: [initial_dst] is the buffer of its
    base, and the caller's array has the byte at [last]. *)
Definition fixed_z_wf (z : format_to_fixed_z_t) : Prop :=
  fixed_wf z ∧ initial_dst z = buffer_ptr z ∧
  valid_range (mem z) (buffer_ptr z) (buffer_size z + 1).

(** * Facts about the memory *)

Section MemoryFacts.

Implicit Types (m : memory) (p q : pointer) (bs cs : list byte) (c : byte).

Lemma valid_range_le m p n k : valid_range m p n → k ≤ n → valid_range m p k.
Proof. intros (l & Hl & Hn) Hk. exists l. split; [done | lia]. Qed.

Lemma store_is_store_bytes m p c : store m p c = store_bytes m p [c].
Proof.
  unfold store, store_bytes. destruct (m !! blk p) as [l|]; simpl; [|done].
  repeat case_decide; try lia; [|done].
  do 2 f_equal. rewrite (insert_take_drop l (off p) c) by done.
  by replace (off p + 1) with (S (off p)) by lia.
Qed.

Lemma store_bytes_is_Some m p bs :
  valid_range m p (length bs) → is_Some (store_bytes m p bs).
Proof.
  intros (l & Hl & Hn). unfold store_bytes. rewrite Hl. simpl.
  case_decide; [eauto | lia].
Qed.

Lemma store_bytes_same m m' p bs :
  store_bytes m p bs = Some m' →
  ∃ l, m !! blk p = Some l ∧ off p + length bs ≤ length l ∧
       m' !! blk p = Some (take (off p) l ++ bs ++ drop (off p + length bs) l).
Proof.
  unfold store_bytes. destruct (m !! blk p) as [l|]; simpl; [|done].
  case_decide; [|done]. intros [= <-]. exists l. by rewrite lookup_insert_eq.
Qed.

Lemma store_bytes_other m m' p bs b :
  store_bytes m p bs = Some m' → b ≠ blk p → m' !! b = m !! b.
Proof.
  unfold store_bytes. destruct (m !! blk p) as [l|]; simpl; [|done].
  case_decide; [|done]. intros [= <-] Hb. by rewrite lookup_insert_ne.
Qed.

Lemma store_bytes_valid m m' p bs q n :
  store_bytes m p bs = Some m' → valid_range m q n → valid_range m' q n.
Proof.
  intros Hs (l & Hl & Hn). destruct (decide (blk q = blk p)) as [Heq|Hne].
  - destruct (store_bytes_same _ _ _ _ Hs) as (l' & Hl' & Hb & Hm').
    rewrite Heq in Hl. rewrite Hl in Hl'. injection Hl' as <-.
    eexists. rewrite Heq. split; [exact Hm'|].
    rewrite !length_app, length_take, length_drop. lia.
  - exists l. by rewrite (store_bytes_other _ _ _ _ _ Hs Hne).
Qed.

Lemma load_bytes_length m p n cs : load_bytes m p n = Some cs → length cs = n.
Proof.
  unfold load_bytes. destruct (m !! blk p) as [l|]; simpl; [|done].
  case_decide; [|done]. intros [= <-]. rewrite length_take, length_drop. lia.
Qed.

Lemma load_bytes_is_Some m p n : valid_range m p n → is_Some (load_bytes m p n).
Proof.
  intros (l & Hl & Hn). unfold load_bytes. rewrite Hl. simpl.
  case_decide; [eauto | lia].
Qed.

Lemma load_bytes_valid m p n cs : load_bytes m p n = Some cs → valid_range m p n.
Proof.
  unfold load_bytes, valid_range. destruct (m !! blk p) as [l|]; simpl; [|done].
  case_decide; [|done]. eauto.
Qed.

Lemma load_bytes_take m p n k cs :
  load_bytes m p n = Some cs → k ≤ n → load_bytes m p k = Some (take k cs).
Proof.
  unfold load_bytes. destruct (m !! blk p) as [l|]; simpl; [|done].
  case_decide; [|done]. intros [= <-] Hk. case_decide; [|lia].
  by rewrite take_take, Nat.min_l.
Qed.

Lemma load_bytes_store_other m m' p bs q n :
  store_bytes m p bs = Some m' → blk q ≠ blk p → load_bytes m' q n = load_bytes m q n.
Proof.
  intros Hs Hne. unfold load_bytes. by rewrite (store_bytes_other _ _ _ _ _ Hs Hne).
Qed.

Lemma load_bytes_store_before m m' p bs q n :
  store_bytes m p bs = Some m' → blk q = blk p → off q + n ≤ off p →
  load_bytes m' q n = load_bytes m q n.
Proof.
  intros Hs Hb Hn. destruct (store_bytes_same _ _ _ _ Hs) as (l & Hl & Hlen & Hm').
  unfold load_bytes. rewrite Hb, Hl, Hm'. simpl.
  rewrite !length_app, length_take, length_drop.
  repeat case_decide; try lia. f_equal.
  rewrite drop_app_le by (rewrite length_take; lia).
  rewrite take_app_le by (rewrite length_drop, length_take; lia).
  apply list_eq. intros i. rewrite !lookup_take, !lookup_drop, lookup_take.
  repeat case_decide; (done || lia).
Qed.

Lemma load_bytes_store_app m m' q n bs cs :
  store_bytes m (ptr_add q n) bs = Some m' → load_bytes m q n = Some cs →
  load_bytes m' q (n + length bs) = Some (cs ++ bs).
Proof.
  intros Hs Hc. destruct (store_bytes_same _ _ _ _ Hs) as (l & Hl & Hlen & Hm').
  simpl in *. revert Hc. unfold load_bytes. rewrite Hl, Hm'. simpl.
  rewrite !length_app, length_take, length_drop.
  repeat case_decide; try lia. intros [= <-]. f_equal.
  apply list_eq. intros i.
  rewrite lookup_take, lookup_drop.
  destruct (decide (i < n)) as [Hi|Hi].
  - rewrite lookup_app_l by (rewrite length_take; lia).
    rewrite lookup_app_l by (rewrite length_take, length_drop; lia).
    rewrite !lookup_take, lookup_drop. repeat case_decide; (done || lia).
  - rewrite lookup_app_r by (rewrite length_take; lia).
    rewrite (lookup_app_r (take n _)) by (rewrite length_take, length_drop; lia).
    rewrite !length_take, length_drop.
    rewrite !Nat.min_l by lia.
    replace (off q + i - (off q + n)) with (i - n) by lia.
    case_decide.
    + by rewrite lookup_app_l by lia.
    + rewrite lookup_ge_None_2; [done | lia].
Qed.

Lemma load_store_same m m' p c : store m p c = Some m' → load m' p = Some c.
Proof.
  unfold store, load. destruct (m !! blk p) as [l|]; simpl; [|done].
  case_decide; [|done]. intros [= <-]. rewrite lookup_insert_eq. simpl.
  by apply list_lookup_insert_eq.
Qed.

Lemma valid_range_add m p a b :
  valid_range m p (a + b) → valid_range m (ptr_add p a) b.
Proof. intros (l & Hl & Hn). exists l. simpl. split; [done | lia]. Qed.

Lemma take_take_app {A} n (l k : list A) : take n (take n l ++ k) = take n (l ++ k).
Proof.
  destruct (decide (length l ≤ n)).
  - by rewrite (take_ge l).
  - rewrite !take_app_le by (rewrite ?length_take; lia).
    by rewrite take_take, Nat.min_id.
Qed.

End MemoryFacts.

(** * Facts about the flags *)

Section FlagFacts.

Lemma flag_set_lor_overflow f : flag_set (Z.lor f FL_OVERFLOW) FL_OVERFLOW = true.
Proof.
  unfold flag_set, FL_OVERFLOW. rewrite Z.land_lor_distr_l.
  change (Z.land 2 2) with 2%Z.
  apply negb_true_iff, Z.eqb_neq. intros H. apply Z.lor_eq_0_iff in H. lia.
Qed.

Lemma flag_set_lor_fixed f : flag_set (Z.lor f FL_OVERFLOW) FL_FIXED = flag_set f FL_FIXED.
Proof.
  unfold flag_set, FL_OVERFLOW, FL_FIXED. rewrite Z.land_lor_distr_l.
  change (Z.land 2 1) with 0%Z. by rewrite Z.lor_0_r.
Qed.

Lemma flag_set_clear_overflow f :
  flag_set (Z.land f (Z.lnot FL_OVERFLOW)) FL_OVERFLOW = false.
Proof.
  unfold flag_set, FL_OVERFLOW. rewrite <- Z.land_assoc.
  change (Z.land (Z.lnot 2) 2) with 0%Z. by rewrite Z.land_0_r.
Qed.

Lemma flag_set_clear_fixed f :
  flag_set (Z.land f (Z.lnot FL_OVERFLOW)) FL_FIXED = flag_set f FL_FIXED.
Proof.
  unfold flag_set, FL_OVERFLOW, FL_FIXED. rewrite <- Z.land_assoc.
  by change (Z.land (Z.lnot 2) 1) with 1%Z.
Qed.

End FlagFacts.

(** * Facts about fixed targets *)

Section FixedFacts.

Context {E : Engine}.

Implicit Types (t : format_target) (cs input : list byte).

Lemma same_object_refl t : same_object t t.
Proof. by repeat split. Qed.

Lemma same_object_trans t1 t2 t3 : same_object t1 t2 → same_object t2 t3 → same_object t1 t3.
Proof. unfold same_object. intuition congruence. Qed.

Lemma same_shape_refl m : same_shape m m.
Proof. by intros p n. Qed.

Lemma same_shape_trans m1 m2 m3 : same_shape m1 m2 → same_shape m2 m3 → same_shape m1 m3.
Proof. intros H1 H2 p n H. by apply H2, H1. Qed.

Lemma same_shape_store_bytes m m' p bs :
  store_bytes m p bs = Some m' → same_shape m m'.
Proof. intros Hs q n. by apply store_bytes_valid with p bs. Qed.

Lemma fixed_size t : fixed_wf t → size t = written t.
Proof. intros [_ Hf _ _ _ _]. unfold size. by rewrite Hf. Qed.

Lemma fixed_data t : fixed_wf t → data t = buffer_ptr t.
Proof. intros [_ Hf _ _ _ _]. unfold data. by rewrite Hf. Qed.

Lemma fixed_contents t :
  fixed_wf t → contents t = load_bytes (mem t) (buffer_ptr t) (written t).
Proof. intros H. unfold contents. by rewrite fixed_size, fixed_data. Qed.

Lemma fixed_written_le t : fixed_wf t → written t ≤ buffer_size t.
Proof.
  intros [_ _ _ _ _ Ht]. unfold written, has_overflowed in *.
  destruct (flag_set (flags t) FL_OVERFLOW); [done | lia].
Qed.

Lemma fixed_contents_is_Some t : fixed_wf t → is_Some (contents t).
Proof.
  intros H. rewrite fixed_contents by done. apply load_bytes_is_Some.
  eapply valid_range_le; [apply H | by apply fixed_written_le].
Qed.

Lemma fixed_try_reserve n t :
  fixed_wf t →
  ∃ t', Fmt.try_reserve n t = Some t' ∧ fixed_wf t' ∧ same_object t t' ∧
        mem t' = mem t ∧ written t' = written t ∧
        (size_ (target t) < n → size_ (target t') < capacity_ (target t')) ∧
        (has_overflowed t' = false → t' = t) ∧
        (has_overflowed t = true → has_overflowed t' = true).
Proof.
  intros Hwf. pose proof (fixed_written_le t Hwf) as Hle.
  destruct Hwf as [Hc Hf Hr Hd Ha Ht].
  assert (size_ (target t) ≤ capacity_ (target t)) as Hfill.
  { destruct (has_overflowed t); lia. }
  unfold Fmt.try_reserve. case_decide as Hn.
  - unfold Fmt.grow. rewrite Hc. unfold Fmt.fixed_grow. case_decide as Hfull.
    + eexists. split; [done|].
      assert (has_overflowed (with_flags (Z.lor (flags t) FL_OVERFLOW)
                (Fmt.set (discard t) discard_size (Fmt.clear t))) = true) as Hov.
      { apply flag_set_lor_overflow. }
      split; [|split; [by repeat split|]]; [|repeat split].
      * split; simpl; try done.
        -- by rewrite flag_set_lor_fixed.
        -- rewrite Hov. simpl. unfold discard_size. repeat split. lia.
      * unfold written in *. simpl. rewrite flag_set_lor_overflow.
        unfold has_overflowed in Ht.
        destruct (flag_set (flags t) FL_OVERFLOW); [done | lia].
      * simpl. unfold discard_size. lia.
      * intros Hno. congruence.
      * done.
    + exists t. repeat split; try done. lia.
  - exists t. repeat split; try done. lia.
Qed.

Ltac split_post := split; [|split; [|split; [|split]]].

Lemma fixed_post_trans cs i1 i2 t t1 t2 :
  fixed_post cs i1 t t1 → fixed_post (take (buffer_size t) (cs ++ i1)) i2 t1 t2 →
  fixed_post cs (i1 ++ i2) t t2.
Proof.
  intros (Hwf1 & Hso1 & Hsh1 & Hc1 & Hov1) (Hwf2 & Hso2 & Hsh2 & Hc2 & Hov2).
  assert (buffer_size t1 = buffer_size t) as HC by apply Hso1.
  rewrite HC in *. split_post.
  - done.
  - by apply same_object_trans with t1.
  - by apply same_shape_trans with (mem t1).
  - by rewrite Hc2, take_take_app, app_assoc.
  - rewrite Hov2, Hov1, length_take, !length_app.
    destruct (has_overflowed t); simpl; [done|].
    repeat case_bool_decide; simpl; (done || lia).
Qed.

Lemma fixed_round input t cs :
  fixed_wf t → contents t = Some cs → input ≠ [] →
  ∃ t1 m k,
    Fmt.try_reserve (size_ (target t) + length input) t = Some t1 ∧
    k = (if decide (capacity_ (target t1) - size_ (target t1) < length input)
         then capacity_ (target t1) - size_ (target t1) else length input) ∧
    0 < k ∧
    store_bytes (mem t1) (ptr_add (ptr_ (target t1)) (size_ (target t1))) (take k input)
      = Some m ∧
    fixed_post cs (take k input) t (with_mem m (Fmt.set_size (size_ (target t1) + k) t1)).
Proof.
  intros Hwf Hcs Hne.
  assert (0 < length input) as Hlen by (destruct input; [done | simpl; lia]).
  destruct (fixed_try_reserve (size_ (target t) + length input) t Hwf)
    as (t1 & Hres & Hwf1 & Hso & Hmem & Hwr & Hroom & Hno & Hov).
  specialize (Hroom ltac:(lia)).
  set (k := if decide (capacity_ (target t1) - size_ (target t1) < length input)
            then capacity_ (target t1) - size_ (target t1) else length input).
  assert (0 < k ∧ k ≤ length input ∧ size_ (target t1) + k ≤ capacity_ (target t1))
    as (Hk0 & Hk1 & Hk2) by (subst k; case_decide; lia).
  assert (length (take k input) = k) as Htk by (rewrite length_take; lia).
  assert (valid_range (mem t1) (ptr_ (target t1)) (capacity_ (target t1))) as Hvalid.
  { destruct Hwf1 as [_ _ Hr Hd _ Ht]. destruct (has_overflowed t1).
    - destruct Ht as (-> & -> & _). done.
    - destruct Ht as (-> & -> & _). done. }
  destruct (store_bytes_is_Some (mem t1) (ptr_add (ptr_ (target t1)) (size_ (target t1)))
              (take k input)) as [m Hm].
  { rewrite Htk. apply valid_range_add. eapply valid_range_le; [exact Hvalid | lia]. }
  exists t1, m, k. do 4 (split; [done|]). split_post.
  - destruct Hwf1 as [Hc1 Hf1 Hr1 Hd1 Ha1 Ht1]. split; simpl; try done.
    + by eapply store_bytes_valid.
    + by eapply store_bytes_valid.
    + unfold has_overflowed in *. simpl.
      destruct (flag_set (flags t1) FL_OVERFLOW); intuition lia.
  - exact Hso.
  - rewrite <- Hmem. by eapply same_shape_store_bytes.
  - rewrite fixed_contents in Hcs by done.
    pose proof (load_bytes_length _ _ _ _ Hcs) as Hlcs.
    destruct Hso as (_ & Hbp & Hbs & _).
    unfold contents, data, size, written in *. simpl.
    destruct Hwf1 as [Hc1 Hf1 Hr1 Hd1 Ha1 Ht1]. rewrite Hf1.
    unfold has_overflowed in *.
    destruct (flag_set (flags t1) FL_OVERFLOW) eqn:Hov1.
    + destruct Ht1 as (Hp & _).
      rewrite (load_bytes_store_other _ _ _ _ _ _ Hm) by (simpl; rewrite Hp; done).
      rewrite Hmem, Hbp, Hwr, Hcs. f_equal.
      rewrite take_app_le by lia. rewrite take_ge by lia. done.
    + rewrite (Hno eq_refl) in *. destruct Ht1 as (Hp & Hcap & Hsz).
      rewrite Hp in Hm. rewrite Hov1 in Hcs.
      rewrite <- Htk at 1. rewrite (load_bytes_store_app _ _ _ _ _ _ Hm Hcs).
      rewrite Hov1 in Hlcs.
      f_equal. rewrite (take_ge (cs ++ _)); [done|]. rewrite length_app, Htk. lia.
  - rewrite fixed_contents in Hcs by done.
    pose proof (load_bytes_length _ _ _ _ Hcs) as Hlcs.
    unfold has_overflowed, written in *. simpl. rewrite Htk.
    destruct (flag_set (flags t1) FL_OVERFLOW) eqn:Hov1.
    + destruct (flag_set (flags t) FL_OVERFLOW) eqn:Hov0; simpl; [done|].
      symmetry. apply bool_decide_eq_true. destruct Hso as (_ & _ & Hbs & _). lia.
    + rewrite (Hno eq_refl) in *. rewrite Hov1. simpl.
      symmetry. apply bool_decide_eq_false.
      destruct Hwf as [_ _ _ _ _ Ht]. unfold has_overflowed in Ht.
      rewrite Hov1 in Ht. rewrite Hov1 in Hlcs. lia.
Qed.

Lemma fixed_post_nil t cs : fixed_wf t → contents t = Some cs → fixed_post cs [] t t.
Proof.
  intros Hwf Hcs. pose proof (fixed_written_le t Hwf) as Hle.
  pose proof Hcs as Hlen. rewrite fixed_contents in Hlen by done.
  apply load_bytes_length in Hlen.
  split_post.
  - done.
  - apply same_object_refl.
  - apply same_shape_refl.
  - rewrite Hcs, app_nil_r. f_equal. rewrite take_ge; [done | lia].
  - simpl. rewrite bool_decide_eq_false_2 by lia. by rewrite orb_false_r.
Qed.

Lemma append_loop_round fuel input t :
  input ≠ [] →
  Fmt.append_loop (S fuel) input t =
    t1 ← Fmt.try_reserve (size_ (target t) + length input) t;
    let k := if decide (capacity_ (target t1) - size_ (target t1) < length input)
             then capacity_ (target t1) - size_ (target t1) else length input in
    m ← store_bytes (mem t1) (ptr_add (ptr_ (target t1)) (size_ (target t1))) (take k input);
    Fmt.append_loop fuel (drop k input) (with_mem m (Fmt.set_size (size_ (target t1) + k) t1)).
Proof. by destruct input. Qed.

Lemma fixed_append_loop fuel : ∀ input t cs,
  fixed_wf t → contents t = Some cs → length input ≤ fuel →
  ∃ t', Fmt.append_loop fuel input t = Some t' ∧ fixed_post cs input t t'.
Proof.
  induction fuel as [|fuel IH]; intros input t cs Hwf Hcs Hfuel.
  - destruct input; [|simpl in Hfuel; lia]. exists t. split; [done|].
    by apply fixed_post_nil.
  - destruct input as [|b input'] eqn:Hin.
    { exists t. split; [done|]. by apply fixed_post_nil. }
    rewrite <- Hin in *.
    destruct (fixed_round input t cs Hwf Hcs) as (t1 & m & k & Hres & Hk & Hk0 & Hm & Hpost).
    { by rewrite Hin. }
    destruct Hpost as (Hwf2 & Hrest).
    pose proof Hrest as (Hso2 & Hsh2 & Hc2 & Hov2).
    destruct (IH (drop k input) _ _ Hwf2 Hc2) as (t' & Hloop & Hpost').
    { rewrite length_drop. lia. }
    exists t'. split.
    + rewrite append_loop_round by (by rewrite Hin).
      rewrite Hres. simpl. rewrite <- Hk, Hm. simpl. exact Hloop.
    + rewrite <- (take_drop k input) at 1.
      eapply fixed_post_trans; [|exact Hpost']. by split.
Qed.

Lemma fixed_append input t cs :
  fixed_wf t → contents t = Some cs →
  ∃ t', Fmt.append input t = Some t' ∧ fixed_post cs input t t'.
Proof. intros Hwf Hcs. by apply fixed_append_loop. Qed.

Lemma push_back_is_append c t :
  (∀ t1, Fmt.try_reserve (size_ (target t) + 1) t = Some t1 →
         size_ (target t1) < capacity_ (target t1)) →
  Fmt.push_back c t = Fmt.append [c] t.
Proof.
  intros Hroom. unfold Fmt.push_back, Fmt.append.
  change (length [c]) with 1. rewrite append_loop_round by done.
  change (length [c]) with 1.
  destruct (Fmt.try_reserve (size_ (target t) + 1) t) as [t1|] eqn:Hres; [|done].
  specialize (Hroom t1 eq_refl). simpl.
  case_decide; [lia|]. simpl. rewrite store_is_store_bytes.
  by destruct (store_bytes _ _ _).
Qed.

Lemma fixed_push_back c t cs :
  fixed_wf t → contents t = Some cs →
  ∃ t', Fmt.push_back c t = Some t' ∧ fixed_post cs [c] t t'.
Proof.
  intros Hwf Hcs. rewrite push_back_is_append; [by apply fixed_append|].
  intros t1 Hres.
  destruct (fixed_try_reserve (size_ (target t) + 1) t Hwf)
    as (t1' & Hres' & _ & _ & _ & _ & Hroom & _).
  rewrite Hres in Hres'. injection Hres' as <-. apply Hroom. lia.
Qed.

Lemma fixed_deliver pieces : ∀ t cs,
  fixed_wf t → contents t = Some cs →
  ∃ t', Fmt.deliver pieces t = Some t' ∧ fixed_post cs (concat pieces) t t'.
Proof.
  induction pieces as [|piece pieces IH]; intros t cs Hwf Hcs.
  - exists t. split; [done|]. by apply fixed_post_nil.
  - destruct (fixed_append piece t cs Hwf Hcs) as (t1 & Happ & Hpost).
    pose proof Hpost as (Hwf1 & _ & _ & Hc1 & _).
    destruct (IH t1 _ Hwf1 Hc1) as (t' & Hdel & Hpost').
    exists t'. split.
    + simpl. rewrite Happ. exact Hdel.
    + simpl. by eapply fixed_post_trans.
Qed.

(** Once a fixed target has overflowed, [t] itself is what any input leaves. *)
Lemma fixed_post_overflowed input t cs :
  fixed_wf t → contents t = Some cs → has_overflowed t = true →
  fixed_post cs input t t.
Proof.
  intros Hwf Hcs Hov. pose proof Hcs as Hlen.
  rewrite fixed_contents in Hlen by done. apply load_bytes_length in Hlen.
  unfold written in Hlen. unfold has_overflowed in Hov. rewrite Hov in Hlen.
  split_post.
  - done.
  - apply same_object_refl.
  - apply same_shape_refl.
  - rewrite Hcs. f_equal. by rewrite take_app_length'.
  - unfold has_overflowed. by rewrite Hov.
Qed.

Lemma fixed_run_write w t cs :
  fixed_wf t → contents t = Some cs →
  ∃ t', run_write w t = Some t' ∧ fixed_post cs (write_bytes w) t t'.
Proof.
  intros Hwf Hcs.
  destruct (has_overflowed t) eqn:Hov.
  - exists t. split.
    + destruct w; simpl; unfold append_sv, append, push_back, format, vformat;
        by rewrite Hov.
    + by apply fixed_post_overflowed.
  - destruct w; simpl; unfold append_sv, append, push_back, format, vformat;
      rewrite Hov.
    + by apply fixed_append.
    + by apply fixed_append.
    + by apply fixed_push_back.
    + by apply fixed_deliver.
    + by apply fixed_deliver.
Qed.

Lemma fixed_run_writes ws : ∀ t cs,
  fixed_wf t → contents t = Some cs →
  ∃ t', run_writes ws t = Some t' ∧
        fixed_post cs (concat (map write_bytes ws)) t t'.
Proof.
  induction ws as [|w ws IH]; intros t cs Hwf Hcs.
  - exists t. split; [done|]. by apply fixed_post_nil.
  - destruct (fixed_run_write w t cs Hwf Hcs) as (t1 & Hrun & Hpost).
    pose proof Hpost as (Hwf1 & _ & _ & Hc1 & _).
    destruct (IH t1 _ Hwf1 Hc1) as (t' & Hrest & Hpost').
    exists t'. split.
    + unfold run_writes in *. simpl. rewrite Hrun. exact Hrest.
    + simpl. by eapply fixed_post_trans.
Qed.

Lemma fixed_with_mem t m p bs :
  fixed_wf t → store_bytes (mem t) p bs = Some m → fixed_wf (with_mem m t).
Proof.
  intros [Hc Hf Hr Hd Ha Ht] Hm. split; simpl; try done.
  - by eapply store_bytes_valid.
  - by eapply store_bytes_valid.
Qed.

Lemma fixed_wf_set_size t : fixed_wf t → fixed_wf (Fmt.set_size 0 t).
Proof.
  intros [Hc Hf Hr Hd Ha Ht]. split; simpl; try done.
  unfold has_overflowed in *. simpl.
  destruct (flag_set (flags t) FL_OVERFLOW); intuition lia.
Qed.

(** [try_resize] asks nothing of the size it overwrites. *)
Lemma fixed_try_resize n t :
  fixed_wf (Fmt.set_size 0 t) →
  ∃ t', Fmt.try_resize n t = Some t' ∧ fixed_wf t' ∧ same_object t t' ∧
        mem t' = mem t ∧
        (has_overflowed t = true → has_overflowed t' = true) ∧
        (n ≤ capacity_ (target t) → t' = Fmt.set_size n t).
Proof.
  intros [Hc Hf Hr Hd Ha Ht]. simpl in *.
  unfold has_overflowed in Ht. simpl in Ht.
  unfold Fmt.try_resize, Fmt.try_reserve. case_decide as Hn.
  - unfold Fmt.grow. rewrite Hc. unfold Fmt.fixed_grow. case_decide as Hfull; simpl.
    + eexists. split; [done|]. split; [|split; [done|split; [done|split]]].
      * split; simpl; try done.
        -- by rewrite flag_set_lor_fixed.
        -- unfold has_overflowed. simpl. rewrite flag_set_lor_overflow.
           split; [done|]. split; [done|]. case_decide; lia.
      * intros _. apply flag_set_lor_overflow.
      * lia.
    + eexists. split; [done|]. split; [|split; [done|split; [done|split]]].
      * split; simpl; try done. unfold has_overflowed. simpl.
        destruct (flag_set (flags t) FL_OVERFLOW);
          (split; [apply Ht|]; split; [apply Ht|]; case_decide; lia).
      * done.
      * lia.
  - simpl. eexists. split; [done|]. split; [|split; [done|split; [done|split]]].
    + split; simpl; try done. unfold has_overflowed. simpl.
      destruct (flag_set (flags t) FL_OVERFLOW);
        (split; [apply Ht|]; split; [apply Ht|]; case_decide; lia).
    + done.
    + intros Hle. unfold Fmt.set_size. by case_decide.
Qed.

(** The caller's block is out of reach while the buffer sits on [discard]. *)
Lemma fixed_store_overflowed t m p bs :
  fixed_wf t → has_overflowed t = true → blk p = blk (ptr_ (target t)) →
  store_bytes (mem t) p bs = Some m →
  m !! blk (buffer_ptr t) = mem t !! blk (buffer_ptr t).
Proof.
  intros [_ _ _ _ Ha Ht] Hov Hp Hm. rewrite Hov in Ht. destruct Ht as (Hd & _).
  eapply store_bytes_other; [done|]. rewrite Hp, Hd. done.
Qed.

Lemma fixed_append_span_func n func t t' :
  fixed_wf t → append_span_func n func t = Some t' →
  fixed_wf t' ∧ same_object t t' ∧ same_shape (mem t) (mem t') ∧
  (has_overflowed t = true →
   has_overflowed t' = true ∧ mem t' !! blk (buffer_ptr t) = mem t !! blk (buffer_ptr t)).
Proof.
  intros Hwf. unfold append_span_func.
  destruct (fixed_try_reserve (size_add (size_ (target t)) n) t Hwf)
    as (t1 & -> & Hwf1 & Hso & Hmem & _ & _ & _ & Hov). simpl.
  case_decide as Hfull.
  - intros [= <-]. rewrite Hmem. split; [done|]. split; [done|].
    split; [apply same_shape_refl|]. auto.
  - destruct (func _) as [stored reported].
    destruct (store_bytes _ _ stored) as [m|] eqn:Hm; simpl; [|done].
    pose proof (fixed_with_mem _ _ _ _ Hwf1 Hm) as Hwf2.
    destruct (fixed_try_resize (size_add (size_ (target t1)) reported) _
                (fixed_wf_set_size _ Hwf2))
      as (t2 & -> & Hwf' & Hso' & Hmem' & Hov' & _).
    intros [= <-]. split; [done|]. split; [by eapply same_object_trans|].
    split.
    + rewrite Hmem'. simpl. rewrite <- Hmem. by eapply same_shape_store_bytes.
    + intros H0. specialize (Hov H0). split; [by apply Hov'|].
      rewrite Hmem'. simpl. rewrite <- Hmem.
      destruct Hso as (_ & <- & _).
      exact (fixed_store_overflowed t1 m
               (ptr_add (ptr_ (target t1)) (size_ (target t1))) stored Hwf1 Hov eq_refl Hm).
Qed.

Lemma fixed_append_ptr_last_func n func t t' :
  fixed_wf t → append_ptr_last_func n func t = Some t' →
  fixed_wf t' ∧ same_object t t' ∧ same_shape (mem t) (mem t') ∧
  (has_overflowed t = true →
   has_overflowed t' = true ∧ mem t' !! blk (buffer_ptr t) = mem t !! blk (buffer_ptr t)).
Proof.
  intros Hwf. unfold append_ptr_last_func.
  destruct (fixed_try_reserve (size_add (size_ (target t)) n) t Hwf)
    as (t1 & -> & Hwf1 & Hso & Hmem & _ & _ & _ & Hov). simpl.
  case_decide as Hroom.
  - destruct (func _) as [stored used].
    destruct (store_bytes _ _ stored) as [m|] eqn:Hm; simpl; [|done].
    pose proof (fixed_with_mem _ _ _ _ Hwf1 Hm) as Hwf2.
    match goal with |- Fmt.try_resize ?k _ = _ → _ =>
      destruct (fixed_try_resize k _ (fixed_wf_set_size _ Hwf2))
        as (t2 & -> & Hwf' & Hso' & Hmem' & Hov' & _) end.
    intros [= <-]. split; [done|]. split; [by eapply same_object_trans|].
    split.
    + rewrite Hmem'. simpl. rewrite <- Hmem. by eapply same_shape_store_bytes.
    + intros H0. specialize (Hov H0). split; [by apply Hov'|].
      rewrite Hmem'. simpl. rewrite <- Hmem.
      destruct Hso as (_ & <- & _).
      exact (fixed_store_overflowed t1 m
               (ptr_add (ptr_ (target t1)) (size_ (target t1))) stored Hwf1 Hov eq_refl Hm).
  - intros [= <-]. rewrite Hmem. split; [done|]. split; [done|].
    split; [apply same_shape_refl|]. auto.
Qed.

Lemma fixed_restore_size n t :
  fixed_wf t →
  ∃ t', restore_size n t = Some t' ∧ fixed_wf t' ∧ same_object t t' ∧
        mem t' = mem t ∧
        (n ≤ written t → has_overflowed t' = false ∧ written t' = n).
Proof.
  intros Hwf. pose proof (fixed_written_le t Hwf) as Hle.
  pose proof Hwf as [Hc Hf Hr Hd Ha Ht].
  unfold restore_size, restore_size_impl. rewrite Hf.
  unfold has_overflowed, written in *.
  destruct (flag_set (flags t) FL_OVERFLOW) eqn:Hov.
  - match goal with |- ∃ t', Fmt.try_resize n ?t0 = _ ∧ _ =>
      destruct (fixed_try_resize n t0) as (t' & Hres & Hwf' & Hso & Hmem & _ & Hfit) end.
    { split; simpl; try done.
      - by rewrite flag_set_clear_fixed.
      - unfold has_overflowed. simpl. rewrite flag_set_clear_overflow.
        repeat split. lia. }
    exists t'. split; [done|]. split; [done|]. split; [done|]. split; [done|].
    intros Hn. simpl in Hfit. rewrite (Hfit Hn). simpl.
    by rewrite flag_set_clear_overflow.
  - destruct (fixed_try_resize n t (fixed_wf_set_size _ Hwf))
      as (t' & Hres & Hwf' & Hso & Hmem & _ & Hfit).
    exists t'. split; [done|]. split; [done|]. split; [done|]. split; [done|].
    intros Hn. destruct Ht as (_ & Hcap & _). rewrite Hfit by lia. simpl.
    by rewrite Hov.
Qed.

Lemma fixed_post_invariant cs input t t' :
  fixed_post cs input t t' →
  fixed_wf t' ∧ same_object t t' ∧ same_shape (mem t) (mem t').
Proof. intros (? & ? & ? & _). done. Qed.

Lemma fixed_run_op o t t' :
  fixed_wf t → run_op o t = Some t' →
  fixed_wf t' ∧ same_object t t' ∧ same_shape (mem t) (mem t').
Proof.
  intros Hwf Hrun. destruct o as [w|n func|n func|n]; simpl in Hrun.
  - destruct (fixed_contents_is_Some t Hwf) as [cs Hcs].
    destruct (fixed_run_write w t cs Hwf Hcs) as (t1 & Hrun1 & Hpost).
    rewrite Hrun in Hrun1. injection Hrun1 as <-.
    by eapply fixed_post_invariant.
  - destruct (fixed_append_ptr_last_func _ _ _ _ Hwf Hrun) as (? & ? & ? & _). done.
  - destruct (fixed_append_span_func _ _ _ _ Hwf Hrun) as (? & ? & ? & _). done.
  - destruct (fixed_restore_size n t Hwf) as (t1 & Hrun1 & ? & ? & Hmem & _).
    rewrite Hrun in Hrun1. injection Hrun1 as <-.
    split; [done|]. split; [done|]. rewrite Hmem. apply same_shape_refl.
Qed.

Lemma fixed_run_ops os : ∀ t t',
  fixed_wf t → run_ops os t = Some t' →
  fixed_wf t' ∧ same_object t t' ∧ same_shape (mem t) (mem t').
Proof.
  induction os as [|o os IH]; intros t t' Hwf Hrun.
  - injection Hrun as <-. split; [done|].
    split; [apply same_object_refl | apply same_shape_refl].
  - unfold run_ops in *. simpl in Hrun.
    destruct (run_op o t) as [t1|] eqn:Ho; [|done]. simpl in Hrun.
    destruct (fixed_run_op o t t1 Hwf Ho) as (Hwf1 & Hso1 & Hsh1).
    destruct (IH t1 t' Hwf1 Hrun) as (Hwf' & Hso' & Hsh').
    split; [done|].
    split; [by eapply same_object_trans | by eapply same_shape_trans].
Qed.

Lemma fixed_observe_overflowed t t' :
  fixed_wf t → fixed_wf t' → same_object t t' →
  has_overflowed t = true → has_overflowed t' = true →
  mem t' !! blk (buffer_ptr t) = mem t !! blk (buffer_ptr t) →
  observe t' = observe t ∧ data t' = data t.
Proof.
  intros Hwf Hwf' (_ & Hbp & Hbs & _) Hov Hov' Hblk.
  unfold observe. rewrite !fixed_contents, !fixed_size, !fixed_data by done.
  unfold written. unfold has_overflowed in *. rewrite Hov, Hov', Hbp, Hbs.
  split; [|done]. f_equal. unfold load_bytes. by rewrite Hblk.
Qed.

Lemma fixed_target_range t :
  fixed_wf t → valid_range (mem t) (ptr_ (target t)) (capacity_ (target t)) ∧
               size_ (target t) ≤ capacity_ (target t).
Proof.
  intros [_ _ Hr Hd _ Ht]. destruct (has_overflowed t).
  - destruct Ht as (-> & -> & ?). done.
  - destruct Ht as (-> & -> & ?). done.
Qed.

Lemma fixed_append_span_func_is_Some n func t :
  fixed_wf t → span_writer_ok func → is_Some (append_span_func n func t).
Proof.
  intros Hwf Hok. unfold append_span_func.
  destruct (fixed_try_reserve (size_add (size_ (target t)) n) t Hwf)
    as (t1 & -> & Hwf1 & _). simpl.
  destruct (fixed_target_range t1 Hwf1) as (Hvalid & Hfill).
  case_decide as Hfull; [done|].
  specialize (Hok (capacity_ (target t1) - size_ (target t1))).
  destruct (func _) as [stored reported]. simpl in Hok.
  destruct (store_bytes_is_Some (mem t1) (ptr_add (ptr_ (target t1)) (size_ (target t1)))
              stored) as [m Hm].
  { apply valid_range_add. eapply valid_range_le; [exact Hvalid | lia]. }
  rewrite Hm. simpl.
  pose proof (fixed_with_mem _ _ _ _ Hwf1 Hm) as Hwf2.
  destruct (fixed_try_resize (size_add (size_ (target t1)) reported) _
              (fixed_wf_set_size _ Hwf2)) as (t2 & Hres & _).
  by rewrite Hres.
Qed.

Lemma fixed_append_ptr_last_func_is_Some n func t :
  fixed_wf t → ptr_last_writer_ok func → is_Some (append_ptr_last_func n func t).
Proof.
  intros Hwf Hok. unfold append_ptr_last_func.
  destruct (fixed_try_reserve (size_add (size_ (target t)) n) t Hwf)
    as (t1 & -> & Hwf1 & _). simpl.
  destruct (fixed_target_range t1 Hwf1) as (Hvalid & Hfill).
  case_decide as Hroom; [|done].
  match goal with |- context [func ?room] => specialize (Hok room) end.
  unfold ptr_diff in *. simpl in Hok.
  destruct (func _) as [stored used]. simpl in Hok.
  destruct (store_bytes_is_Some (mem t1) (ptr_add (ptr_ (target t1)) (size_ (target t1)))
              stored) as [m Hm].
  { apply valid_range_add. eapply valid_range_le; [exact Hvalid | lia]. }
  rewrite Hm. simpl.
  pose proof (fixed_with_mem _ _ _ _ Hwf1 Hm) as Hwf2.
  match goal with |- is_Some (Fmt.try_resize ?k _) =>
    destruct (fixed_try_resize k _ (fixed_wf_set_size _ Hwf2)) as (t2 & Hres & _) end.
  by rewrite Hres.
Qed.

Lemma fixed_write_call_overflowed o t :
  fixed_wf t → has_overflowed t = true → write_call_ok o →
  ∃ t', run_op o t = Some t' ∧ fixed_wf t' ∧ same_object t t' ∧
        has_overflowed t' = true ∧
        mem t' !! blk (buffer_ptr t) = mem t !! blk (buffer_ptr t).
Proof.
  intros Hwf Hov Hok. destruct o as [w|n func|n func|n]; simpl in *; [| | |done].
  - exists t. split; [|by split; [|split; [apply same_object_refl|]]].
    destruct w; simpl; unfold append_sv, append, push_back, format, vformat;
      by rewrite Hov.
  - destruct (fixed_append_ptr_last_func_is_Some n func t Hwf Hok) as [t' Hrun].
    destruct (fixed_append_ptr_last_func _ _ _ _ Hwf Hrun) as (Hwf' & Hso & _ & Hkeep).
    destruct (Hkeep Hov) as (Hov' & Hblk). by exists t'.
  - destruct (fixed_append_span_func_is_Some n func t Hwf Hok) as [t' Hrun].
    destruct (fixed_append_span_func _ _ _ _ Hwf Hrun) as (Hwf' & Hso & _ & Hkeep).
    destruct (Hkeep Hov) as (Hov' & Hblk). by exists t'.
Qed.

Lemma fixed_write_calls_overflowed os : ∀ t,
  fixed_wf t → has_overflowed t = true → Forall write_call_ok os →
  ∃ t', run_ops os t = Some t' ∧ fixed_wf t' ∧ same_object t t' ∧
        has_overflowed t' = true ∧
        mem t' !! blk (buffer_ptr t) = mem t !! blk (buffer_ptr t).
Proof.
  induction os as [|o os IH]; intros t Hwf Hov Hok.
  - exists t. split; [done|]. split; [done|]. split; [apply same_object_refl|]. done.
  - apply Forall_cons in Hok as (Ho & Hos).
    destruct (fixed_write_call_overflowed o t Hwf Hov Ho)
      as (t1 & Hrun1 & Hwf1 & Hso1 & Hov1 & Hblk1).
    destruct (IH t1 Hwf1 Hov1 Hos) as (t' & Hrun & Hwf' & Hso' & Hov' & Hblk').
    exists t'. split.
    + unfold run_ops in *. simpl. rewrite Hrun1. exact Hrun.
    + split; [done|]. split; [by eapply same_object_trans|]. split; [done|].
      destruct Hso1 as (_ & Hbp & _). rewrite Hbp in Hblk'. congruence.
Qed.

Lemma fixed_run_op_defined o t :
  fixed_wf t → op_ok o → is_Some (run_op o t).
Proof.
  intros Hwf Hok. destruct o as [w|n func|n func|n]; simpl in *.
  - destruct (fixed_contents_is_Some t Hwf) as [cs Hcs].
    destruct (fixed_run_write w t cs Hwf Hcs) as (t1 & -> & _). done.
  - by apply fixed_append_ptr_last_func_is_Some.
  - by apply fixed_append_span_func_is_Some.
  - destruct (fixed_restore_size n t Hwf) as (t1 & -> & _). done.
Qed.

Lemma fixed_run_ops_defined os : ∀ t,
  fixed_wf t → Forall op_ok os →
  ∃ t', run_ops os t = Some t' ∧
        fixed_wf t' ∧ same_object t t' ∧ same_shape (mem t) (mem t').
Proof.
  induction os as [|o os IH]; intros t Hwf Hok.
  - exists t. split; [done|]. split; [done|].
    split; [apply same_object_refl | apply same_shape_refl].
  - apply Forall_cons in Hok as (Ho & Hos).
    destruct (fixed_run_op_defined o t Hwf Ho) as [t1 Hrun1].
    destruct (fixed_run_op o t t1 Hwf Hrun1) as (Hwf1 & Hso1 & Hsh1).
    destruct (IH t1 Hwf1 Hos) as (t' & Hrun & Hwf' & Hso' & Hsh').
    exists t'. split.
    + unfold run_ops in *. simpl. rewrite Hrun1. exact Hrun.
    + split; [done|].
      split; [by eapply same_object_trans | by eapply same_shape_trans].
Qed.

End FixedFacts.

(** * Facts about buffer-backed targets *)

Section BufferFacts.

Context {E : Engine}.

Implicit Types (t : format_target) (cs input : list byte).

Lemma buffer_has_overflowed t : buffer_wf t → has_overflowed t = false.
Proof. intros [_ Hf _ _]. unfold has_overflowed. by rewrite Hf. Qed.

Lemma buffer_size_is t : buffer_wf t → size t = size_ (target t).
Proof. intros [_ Hf _ _]. unfold size. by rewrite Hf. Qed.

Lemma buffer_data t : buffer_wf t → data t = ptr_ (target t).
Proof. intros [_ Hf _ _]. unfold data. by rewrite Hf. Qed.

Lemma buffer_contents t :
  buffer_wf t → contents t = load_bytes (mem t) (ptr_ (target t)) (size_ (target t)).
Proof. intros H. unfold contents. by rewrite buffer_size_is, buffer_data. Qed.

Lemma buffer_contents_is_Some t : buffer_wf t → is_Some (contents t).
Proof.
  intros H. rewrite buffer_contents by done. apply load_bytes_is_Some.
  eapply valid_range_le; apply H.
Qed.

Lemma buffer_with_mem t m p bs :
  buffer_wf t → store_bytes (mem t) p bs = Some m → buffer_wf (with_mem m t).
Proof.
  intros [Hc Hf Hr Hs] Hm. split; simpl; try done. by eapply store_bytes_valid.
Qed.

Lemma buffer_try_reserve n t :
  buffer_wf t →
  ∃ t', Fmt.try_reserve n t = Some t' ∧ buffer_wf t' ∧ same_object t t' ∧
        size_ (target t') = size_ (target t) ∧ contents t' = contents t ∧
        n ≤ capacity_ (target t') ∧ capacity_ (target t) ≤ capacity_ (target t') ∧
        (n ≤ capacity_ (target t) → t' = t).
Proof.
  intros Hwf. pose proof Hwf as [Hc Hf Hr Hs].
  unfold Fmt.try_reserve. case_decide as Hn.
  2:{ exists t. split; [done|]. split; [done|]. split; [apply same_object_refl|].
      repeat split; (done || lia). }
  unfold Fmt.grow. rewrite Hc. unfold Fmt.memory_buffer_grow.
  set (new_capacity :=
         if decide (capacity_ (target t) + capacity_ (target t) / 2 < n)
         then n else capacity_ (target t) + capacity_ (target t) / 2).
  assert (n ≤ new_capacity ∧ capacity_ (target t) ≤ new_capacity) as (Hn1 & Hn2).
  { subst new_capacity. case_decide; lia. }
  set (b := fresh (dom (mem t))).
  assert (mem t !! b = None) as Hfresh.
  { apply (not_elem_of_dom (D := gset block)). apply is_fresh. }
  destruct (load_bytes_is_Some (mem t) (ptr_ (target t)) (size_ (target t)))
    as [stored Hstored].
  { by eapply valid_range_le. }
  rewrite Hstored. simpl.
  pose proof (load_bytes_length _ _ _ _ Hstored) as Hlen.
  destruct (store_bytes_is_Some (<[b := replicate new_capacity indeterminate]> (mem t))
              (Ptr b 0) stored) as [m Hm].
  { eexists. simpl. rewrite lookup_insert_eq. split; [done|].
    rewrite length_replicate. lia. }
  rewrite Hm. simpl.
  destruct (store_bytes_same _ _ _ _ Hm) as (l & Hl & _ & Hmb). simpl in Hl, Hmb.
  rewrite lookup_insert_eq in Hl. injection Hl as <-.
  assert (blk (ptr_ (target t)) ≠ b) as Hold.
  { destruct Hr as (l' & Hl' & _). intros Heq. rewrite Heq, Hfresh in Hl'. done. }
  set (m' := if decide (ptr_ (target t) = store_ t) then m
             else delete (blk (ptr_ (target t))) m).
  assert (m' !! b = Some (stored ++ drop (length stored) (replicate new_capacity indeterminate)))
    as Hm'b.
  { subst m'. case_decide; [done|]. by rewrite lookup_delete_ne. }
  eexists. split; [done|].
  assert (load_bytes m' (Ptr b 0) (size_ (target t)) = Some stored) as Hload.
  { unfold load_bytes. simpl. rewrite Hm'b. simpl.
    rewrite length_app, length_drop, length_replicate.
    case_decide; [|lia]. f_equal. rewrite drop_0. by rewrite take_app_length'. }
  split; [|split; [by repeat split|]]; [|repeat split; simpl; try done].
  - split; simpl; try done; [|lia].
    eexists. simpl. split; [exact Hm'b|].
    rewrite length_app, length_drop, length_replicate. lia.
  - rewrite (buffer_contents t Hwf), Hstored.
    unfold contents, data, size. simpl. rewrite Hf. simpl. exact Hload.
  - lia.
Qed.

Lemma buffer_post_nil t cs : buffer_wf t → contents t = Some cs → buffer_post cs [] t t.
Proof.
  intros Hwf Hcs. split; [done|]. split; [apply same_object_refl|].
  by rewrite app_nil_r.
Qed.

Lemma buffer_post_trans cs i1 i2 t t1 t2 :
  buffer_post cs i1 t t1 → buffer_post (cs ++ i1) i2 t1 t2 →
  buffer_post cs (i1 ++ i2) t t2.
Proof.
  intros (Hwf1 & Hso1 & Hc1) (Hwf2 & Hso2 & Hc2). split; [done|].
  split; [by eapply same_object_trans|]. by rewrite app_assoc.
Qed.

(** One round takes the whole input: the buffer grows to hold it. *)
Lemma buffer_append_loop fuel input t cs :
  buffer_wf t → contents t = Some cs → 0 < fuel →
  ∃ t', Fmt.append_loop fuel input t = Some t' ∧ buffer_post cs input t t'.
Proof.
  intros Hwf Hcs Hfuel. destruct fuel as [|fuel]; [lia|].
  destruct input as [|b input'] eqn:Hin.
  { exists t. split; [done|]. by apply buffer_post_nil. }
  rewrite <- Hin. assert (input ≠ []) as Hne by (by rewrite Hin).
  rewrite append_loop_round by done.
  destruct (buffer_try_reserve (size_ (target t) + length input) t Hwf)
    as (t1 & -> & Hwf1 & Hso & Hsz & Hc1 & Hcap & _ & _). simpl.
  case_decide as Hk; [lia|].
  rewrite take_ge, drop_ge by lia.
  pose proof Hwf1 as [_ Hf1 Hr1 _].
  destruct (store_bytes_is_Some (mem t1) (ptr_add (ptr_ (target t1)) (size_ (target t1)))
              input) as [m Hm].
  { apply valid_range_add. eapply valid_range_le; [exact Hr1 | lia]. }
  rewrite Hm. simpl. eexists. split; [by destruct fuel|].
  split; [|split; [exact Hso|]].
  - split; simpl; try apply Hwf1; [by eapply store_bytes_valid | lia].
  - rewrite Hcs in Hc1. rewrite (buffer_contents t1 Hwf1) in Hc1.
    unfold contents, data, size. simpl. rewrite Hf1. simpl.
    by eapply load_bytes_store_app.
Qed.

Lemma buffer_append input t cs :
  buffer_wf t → contents t = Some cs →
  ∃ t', Fmt.append input t = Some t' ∧ buffer_post cs input t t'.
Proof.
  intros Hwf Hcs. unfold Fmt.append. destruct input as [|b input'] eqn:Hin.
  - exists t. split; [done|]. by apply buffer_post_nil.
  - apply buffer_append_loop; [done..|simpl; lia].
Qed.

Lemma buffer_push_back c t cs :
  buffer_wf t → contents t = Some cs →
  ∃ t', Fmt.push_back c t = Some t' ∧ buffer_post cs [c] t t'.
Proof.
  intros Hwf Hcs. rewrite push_back_is_append; [by apply buffer_append|].
  intros t1 Hres.
  destruct (buffer_try_reserve (size_ (target t) + 1) t Hwf)
    as (t1' & Hres' & _ & _ & Hsz & _ & Hcap & _).
  rewrite Hres in Hres'. injection Hres' as <-. lia.
Qed.

Lemma buffer_deliver pieces : ∀ t cs,
  buffer_wf t → contents t = Some cs →
  ∃ t', Fmt.deliver pieces t = Some t' ∧ buffer_post cs (concat pieces) t t'.
Proof.
  induction pieces as [|piece pieces IH]; intros t cs Hwf Hcs.
  - exists t. split; [done|]. by apply buffer_post_nil.
  - destruct (buffer_append piece t cs Hwf Hcs) as (t1 & Happ & Hpost).
    pose proof Hpost as (Hwf1 & _ & Hc1).
    destruct (IH t1 _ Hwf1 Hc1) as (t' & Hdel & Hpost').
    exists t'. split.
    + simpl. rewrite Happ. exact Hdel.
    + simpl. by eapply buffer_post_trans.
Qed.

Lemma buffer_run_write w t cs :
  buffer_wf t → contents t = Some cs →
  ∃ t', run_write w t = Some t' ∧ buffer_post cs (write_bytes w) t t'.
Proof.
  intros Hwf Hcs. pose proof (buffer_has_overflowed t Hwf) as Hov.
  destruct w; simpl; unfold append_sv, append, push_back, format, vformat;
    rewrite Hov.
  - by apply buffer_append.
  - by apply buffer_append.
  - by apply buffer_push_back.
  - by apply buffer_deliver.
  - by apply buffer_deliver.
Qed.

Lemma buffer_run_writes ws : ∀ t cs,
  buffer_wf t → contents t = Some cs →
  ∃ t', run_writes ws t = Some t' ∧
        buffer_post cs (concat (map write_bytes ws)) t t'.
Proof.
  induction ws as [|w ws IH]; intros t cs Hwf Hcs.
  - exists t. split; [done|]. by apply buffer_post_nil.
  - destruct (buffer_run_write w t cs Hwf Hcs) as (t1 & Hrun & Hpost).
    pose proof Hpost as (Hwf1 & _ & Hc1).
    destruct (IH t1 _ Hwf1 Hc1) as (t' & Hrest & Hpost').
    exists t'. split.
    + unfold run_writes in *. simpl. rewrite Hrun. exact Hrest.
    + simpl. by eapply buffer_post_trans.
Qed.

Lemma buffer_try_resize n t :
  buffer_wf t →
  ∃ t', Fmt.try_resize n t = Some t' ∧ buffer_wf t' ∧ same_object t t' ∧
        (n ≤ capacity_ (target t) → t' = Fmt.set_size n t).
Proof.
  intros Hwf. unfold Fmt.try_resize.
  destruct (buffer_try_reserve n t Hwf)
    as (t1 & -> & Hwf1 & Hso & Hsz & Hc1 & Hcap & _ & Hsame). simpl.
  eexists. split; [done|]. split; [|split; [exact Hso|]].
  - destruct Hwf1 as [? ? ? ?]. split; simpl; try done. case_decide; lia.
  - intros Hn. rewrite (Hsame Hn). by case_decide.
Qed.

Lemma buffer_append_span_func n func t t' :
  buffer_wf t → append_span_func n func t = Some t' → buffer_wf t' ∧ same_object t t'.
Proof.
  intros Hwf. unfold append_span_func.
  destruct (buffer_try_reserve (size_add (size_ (target t)) n) t Hwf)
    as (t1 & -> & Hwf1 & Hso & _). simpl.
  case_decide as Hfull; [by intros [= <-]|].
  destruct (func _) as [stored reported].
  destruct (store_bytes _ _ stored) as [m|] eqn:Hm; simpl; [|done].
  pose proof (buffer_with_mem _ _ _ _ Hwf1 Hm) as Hwf2.
  destruct (buffer_try_resize (size_add (size_ (target t1)) reported) _ Hwf2)
    as (t2 & -> & Hwf' & Hso' & _).
  intros [= <-]. split; [done|]. by eapply same_object_trans.
Qed.

Lemma buffer_append_ptr_last_func n func t t' :
  buffer_wf t → append_ptr_last_func n func t = Some t' → buffer_wf t' ∧ same_object t t'.
Proof.
  intros Hwf. unfold append_ptr_last_func.
  destruct (buffer_try_reserve (size_add (size_ (target t)) n) t Hwf)
    as (t1 & -> & Hwf1 & Hso & _). simpl.
  case_decide as Hroom; [|by intros [= <-]].
  destruct (func _) as [stored used].
  destruct (store_bytes _ _ stored) as [m|] eqn:Hm; simpl; [|done].
  pose proof (buffer_with_mem _ _ _ _ Hwf1 Hm) as Hwf2.
  match goal with |- Fmt.try_resize ?k _ = _ → _ =>
    destruct (buffer_try_resize k _ Hwf2) as (t2 & -> & Hwf' & Hso' & _) end.
  intros [= <-]. split; [done|]. by eapply same_object_trans.
Qed.

Lemma buffer_restore_size n t :
  buffer_wf t →
  ∃ t', restore_size n t = Some t' ∧ buffer_wf t' ∧ same_object t t' ∧
        (n ≤ capacity_ (target t) → t' = Fmt.set_size n t).
Proof.
  intros Hwf. unfold restore_size. destruct Hwf as [Hc Hf Hr Hs]. rewrite Hf. simpl.
  by apply buffer_try_resize.
Qed.



End BufferFacts.

(** * The constructors establish well-formedness *)

Section Constructors.

Context {E : Engine}.

Lemma flag_set_narrow_fixed : flag_set (FL_FIXED mod 256) FL_FIXED = true.
Proof. reflexivity. Qed.

Lemma format_to_fixed_base_wf dst C m :
  valid_range m dst C →
  let t := format_to_fixed_base dst C FL_FIXED m in
  fixed_wf t ∧ has_overflowed t = false ∧ contents t = Some [] ∧
  same_shape m (mem t).
Proof.
  intros (l & Hl & Hn). simpl.
  set (b := fresh (dom m)).
  assert (m !! b = None) as Hfresh.
  { apply (not_elem_of_dom (D := gset block)). apply is_fresh. }
  assert (blk dst ≠ b) as Hne.
  { intros Heq. rewrite Heq, Hfresh in Hl. done. }
  assert (same_shape m (<[b := replicate discard_size indeterminate]> m)) as Hshape.
  { intros p n (l' & Hl' & Hn'). exists l'. split; [|done].
    rewrite lookup_insert_ne; [done|]. intros Heq.
    rewrite <- Heq, Hfresh in Hl'. done. }
  split; [|split; [done|split; [|done]]].
  - split; simpl; try done.
    + apply Hshape. by exists l.
    + exists (replicate discard_size indeterminate). split.
      * apply lookup_insert_eq.
      * rewrite length_replicate. cbn [off]. lia.
    + repeat split. lia.
  - unfold contents, data, size, written. simpl.
    unfold load_bytes. rewrite lookup_insert_ne by done. rewrite Hl. simpl.
    case_decide; [|lia]. by rewrite take_0.
Qed.

Lemma format_to_fixed_facts dst C m :
  valid_range m dst C →
  fixed_wf (format_to_fixed dst C m) ∧
  has_overflowed (format_to_fixed dst C m) = false ∧
  contents (format_to_fixed dst C m) = Some [] ∧
  buffer_ptr (format_to_fixed dst C m) = dst ∧
  buffer_size (format_to_fixed dst C m) = C ∧
  same_shape m (mem (format_to_fixed dst C m)).
Proof.
  intros Hvalid.
  destruct (format_to_fixed_base_wf dst C m Hvalid) as (Hwf & Hov & Hcs & Hsh).
  split; [exact Hwf|]. split; [exact Hov|]. split; [exact Hcs|].
  split; [reflexivity|]. split; [reflexivity|]. exact Hsh.
Qed.

(** What a run of writes leaves of a fixed target that has not overflowed. *)
Lemma fixed_writes_result ws t cs :
  fixed_wf t → has_overflowed t = false → contents t = Some cs →
  ∃ t', run_writes ws t = Some t' ∧ fixed_wf t' ∧ same_object t t' ∧
        same_shape (mem t) (mem t') ∧ data t' = buffer_ptr t ∧
        if decide (length cs + length (written_bytes ws) ≤ buffer_size t)
        then size t' = length cs + length (written_bytes ws) ∧
             has_overflowed t' = false ∧
             contents t' = Some (cs ++ written_bytes ws)
        else size t' = buffer_size t ∧ has_overflowed t' = true ∧
             contents t' = Some (take (buffer_size t) (cs ++ written_bytes ws)).
Proof.
  intros Hwf Hov Hcs.
  destruct (fixed_run_writes ws t cs Hwf Hcs) as (t' & Hrun & Hwf' & Hso & Hsh & Hc & Hov').
  fold (written_bytes ws) in *. rewrite Hov in Hov'. simpl in Hov'.
  exists t'. split; [done|]. split; [done|]. split; [done|]. split; [done|].
  pose proof Hso as (_ & Hbp & Hbs & _).
  split; [by rewrite fixed_data|].
  assert (size t' = length (take (buffer_size t) (cs ++ written_bytes ws))) as Hsz.
  { symmetry. by eapply load_bytes_length. }
  rewrite length_take, length_app in Hsz.
  destruct (decide (length cs + length (written_bytes ws) ≤ buffer_size t)) as [Hfit|Hfit].
  - rewrite bool_decide_eq_false_2 in Hov' by lia.
    split; [lia|]. split; [done|]. rewrite Hc. f_equal.
    apply take_ge. rewrite length_app. lia.
  - rewrite bool_decide_eq_true_2 in Hov' by lia.
    split; [lia|]. by split.
Qed.

Lemma format_to_fixed_z_base dst last m :
  base (format_to_fixed_z dst last m)
  = format_to_fixed dst (to_size_t (ptr_diff last dst)) m.
Proof. reflexivity. Qed.

Lemma format_to_buffer_wf buffer store m :
  valid_range m (ptr_ buffer) (capacity_ buffer) → size_ buffer ≤ capacity_ buffer →
  buffer_wf (format_to_buffer buffer store m).
Proof. intros Hr Hs. by split. Qed.

Lemma format_buffer_wf m :
  buffer_wf (format_buffer m) ∧ contents (format_buffer m) = Some [].
Proof.
  unfold format_buffer.
  pose proof (length_replicate Fmt.inline_buffer_size indeterminate) as Hlen.
  set (l := replicate Fmt.inline_buffer_size indeterminate) in *.
  unfold Fmt.inline_buffer_size in Hlen at 1.
  assert (buffer_wf (format_to_buffer (Buffer (Ptr (fresh (dom m)) 0) 0 Fmt.inline_buffer_size)
                       (Ptr (fresh (dom m)) 0) (<[fresh (dom m) := l]> m))) as Hwf.
  { apply format_to_buffer_wf; simpl; [|lia].
    exists l. simpl. split; [apply lookup_insert_eq|].
    unfold Fmt.inline_buffer_size. lia. }
  split; [exact Hwf|].
  rewrite buffer_contents by done. unfold load_bytes. simpl.
  by rewrite lookup_insert_eq.
Qed.

End Constructors.

(** * [format_buffer]: [clear], [c_str] and runs of operations *)

Section FormatBufferFacts.

Context {E : Engine}.

Implicit Types (t : format_target).

Lemma buffer_clear t : buffer_wf t → buffer_wf (Fmt.clear t) ∧ same_object t (Fmt.clear t).
Proof.
  intros [Hc Hf Hr Hs]. split; [|by repeat split].
  split; simpl; try done. lia.
Qed.

Lemma buffer_c_str t :
  buffer_wf t →
  ∃ t1 m,
    (if decide (format_buffer_size t = format_buffer_capacity t)
     then Fmt.try_reserve (format_buffer_capacity t + 1) t else Some t) = Some t1 ∧
    store (mem t1) (format_buffer_end t1) "000"%byte = Some m ∧
    c_str t = Some (format_buffer_data t1, with_mem m t1) ∧
    buffer_wf t1 ∧ buffer_wf (with_mem m t1) ∧ same_object t t1 ∧
    size_ (target t1) = size_ (target t) ∧
    size_ (target t1) < capacity_ (target t1) ∧
    contents (with_mem m t1) = contents t.
Proof.
  intros Hwf. unfold c_str, format_buffer_size, format_buffer_capacity.
  assert (∃ t1,
    (if decide (size_ (target t) = capacity_ (target t))
     then Fmt.try_reserve (capacity_ (target t) + 1) t else Some t) = Some t1 ∧
    buffer_wf t1 ∧ same_object t t1 ∧ size_ (target t1) = size_ (target t) ∧
    size_ (target t1) < capacity_ (target t1) ∧ contents t1 = contents t)
    as (t1 & Hres & Hwf1 & Hso & Hsz & Hroom & Hc1).
  { case_decide as Hfull.
    - destruct (buffer_try_reserve (capacity_ (target t) + 1) t Hwf)
        as (t1 & Hres & Hwf1 & Hso & Hsz & Hc1 & Hcap & _).
      exists t1. do 4 (split; [done|]). split; [lia | done].
    - exists t. do 2 (split; [done|]). split; [apply same_object_refl|].
      split; [done|]. split; [|done]. destruct Hwf as [? ? ? Hs]. lia. }
  rewrite Hres. simpl. unfold format_buffer_end.
  pose proof Hwf1 as [_ Hf1 Hr1 _].
  rewrite store_is_store_bytes.
  destruct (store_bytes_is_Some (mem t1) (ptr_add (ptr_ (target t1)) (size_ (target t1)))
              ["000"%byte]) as [m Hm].
  { apply valid_range_add. eapply valid_range_le; [exact Hr1 | simpl; lia]. }
  rewrite Hm. simpl. exists t1, m.
  pose proof (buffer_with_mem _ _ _ _ Hwf1 Hm) as Hwf2.
  split; [done|]. split; [by rewrite store_is_store_bytes|].
  do 5 (split; [done|]). split; [done|].
  rewrite <- Hc1, !buffer_contents by done. simpl.
  eapply load_bytes_store_before; [exact Hm | done | simpl; lia].
Qed.

Lemma buffer_run_op o t t' :
  buffer_wf t → run_op o t = Some t' → buffer_wf t' ∧ same_object t t'.
Proof.
  intros Hwf Hrun. destruct o as [w|n func|n func|n]; simpl in Hrun.
  - destruct (buffer_contents_is_Some t Hwf) as [cs Hcs].
    destruct (buffer_run_write w t cs Hwf Hcs) as (t1 & Hrun1 & Hwf1 & Hso & _).
    rewrite Hrun in Hrun1. by injection Hrun1 as <-.
  - by eapply buffer_append_ptr_last_func.
  - by eapply buffer_append_span_func.
  - destruct (buffer_restore_size n t Hwf) as (t1 & Hrun1 & ? & ? & _).
    rewrite Hrun in Hrun1. by injection Hrun1 as <-.
Qed.

Lemma buffer_run_buffer_op o t t' :
  buffer_wf t → run_buffer_op o t = Some t' → buffer_wf t' ∧ same_object t t'.
Proof.
  intros Hwf Hrun. destruct o as [o| |]; simpl in Hrun.
  - by eapply buffer_run_op.
  - injection Hrun as <-. by apply buffer_clear.
  - destruct (buffer_c_str t Hwf) as (t1 & m & _ & _ & Hc & _ & Hwf' & Hso & _).
    rewrite Hc in Hrun. simpl in Hrun. injection Hrun as <-.
    split; [done|]. exact Hso.
Qed.

Lemma buffer_run_buffer_ops os : ∀ t t',
  buffer_wf t → run_buffer_ops os t = Some t' → buffer_wf t' ∧ same_object t t'.
Proof.
  induction os as [|o os IH]; intros t t' Hwf Hrun.
  - injection Hrun as <-. split; [done | apply same_object_refl].
  - unfold run_buffer_ops in *. simpl in Hrun.
    destruct (run_buffer_op o t) as [t1|] eqn:Ho; [|done]. simpl in Hrun.
    destruct (buffer_run_buffer_op o t t1 Hwf Ho) as (Hwf1 & Hso1).
    destruct (IH t1 t' Hwf1 Hrun) as (Hwf' & Hso').
    split; [done|]. by eapply same_object_trans.
Qed.



End FormatBufferFacts.

(** * The claims *)

Section Claims.

Context {E : Engine}.

Implicit Types (t : format_target) (ws : list write) (os : list op).

(** C2, as amended.  A fixed-capacity target of capacity [C], made by
    [format_to_fixed] or by [format_to_fixed_z] (where [C = last - dst]), that
    receives more than [C] bytes in total through [append], [push_back],
    [format] and [vformat] ends with [size() = C], with [has_overflowed()]
    true, and with the first [C] bytes of the input in the caller's buffer. *)
Theorem fixed_overflow_keeps_prefix (dst last : pointer) (C : nat) (m : memory) ws :
  valid_range m dst C →
  to_size_t (ptr_diff last dst) = C →
  C < length (written_bytes ws) →
  (∃ t', run_writes ws (format_to_fixed dst C m) = Some t' ∧
         size t' = C ∧ has_overflowed t' = true ∧ data t' = dst ∧
         load_bytes (mem t') dst C = Some (take C (written_bytes ws))) ∧
  (∃ z', run_writes_z ws (format_to_fixed_z dst last m) = Some z' ∧
         size z' = C ∧ has_overflowed z' = true ∧ data z' = dst ∧
         load_bytes (mem z') dst C = Some (take C (written_bytes ws))).
Proof.
  intros Hvalid HC Hlong.
  assert (∃ t', run_writes ws (format_to_fixed dst C m) = Some t' ∧
         size t' = C ∧ has_overflowed t' = true ∧ data t' = dst ∧
         load_bytes (mem t') dst C = Some (take C (written_bytes ws))) as Hfixed.
  { destruct (format_to_fixed_facts dst C m Hvalid) as (Hwf & Hov & Hcs & Hbp & Hbs & _).
    destruct (fixed_writes_result ws _ [] Hwf Hov Hcs)
      as (t' & Hrun & Hwf' & _ & _ & Hd & Hres).
    rewrite Hbp in Hd. rewrite Hbs in Hres. simpl in Hres.
    case_decide; [lia|]. destruct Hres as (Hsz & Hov' & Hc).
    exists t'. repeat split; try done.
    unfold contents in Hc. by rewrite Hd, Hsz in Hc. }
  split; [exact Hfixed|].
  destruct Hfixed as (t' & Hrun & Hrest).
  exists (FixedZ t' dst). split; [|exact Hrest].
  unfold run_writes_z. rewrite format_to_fixed_z_base, HC, Hrun. done.
Qed.

(** C3, as amended.  A fixed-capacity target of capacity [C] that receives
    at most [C] bytes in total (an exact fit included) through [append],
    [push_back], [format] and [vformat] ends with [size()] the total length,
    with [has_overflowed()] false, and with exactly the input in the caller's
    buffer. *)
Theorem fixed_fit_keeps_input (dst last : pointer) (C : nat) (m : memory) ws :
  valid_range m dst C →
  to_size_t (ptr_diff last dst) = C →
  length (written_bytes ws) ≤ C →
  (∃ t', run_writes ws (format_to_fixed dst C m) = Some t' ∧
         size t' = length (written_bytes ws) ∧ has_overflowed t' = false ∧
         data t' = dst ∧ contents t' = Some (written_bytes ws)) ∧
  (∃ z', run_writes_z ws (format_to_fixed_z dst last m) = Some z' ∧
         size z' = length (written_bytes ws) ∧ has_overflowed z' = false ∧
         data z' = dst ∧ contents z' = Some (written_bytes ws)).
Proof.
  intros Hvalid HC Hfit.
  assert (∃ t', run_writes ws (format_to_fixed dst C m) = Some t' ∧
         size t' = length (written_bytes ws) ∧ has_overflowed t' = false ∧
         data t' = dst ∧ contents t' = Some (written_bytes ws)) as Hfixed.
  { destruct (format_to_fixed_facts dst C m Hvalid) as (Hwf & Hov & Hcs & Hbp & Hbs & _).
    destruct (fixed_writes_result ws _ [] Hwf Hov Hcs)
      as (t' & Hrun & Hwf' & _ & _ & Hd & Hres).
    rewrite Hbp in Hd. rewrite Hbs in Hres. simpl in Hres.
    case_decide; [|lia]. destruct Hres as (Hsz & Hov' & Hc).
    exists t'. by repeat split. }
  split; [exact Hfixed|].
  destruct Hfixed as (t' & Hrun & Hrest).
  exists (FixedZ t' dst). split; [|exact Hrest].
  unfold run_writes_z. rewrite format_to_fixed_z_base, HC, Hrun. done.
Qed.

(** C4.  A fixed-capacity target keeps [written() ≤ buffer_size] through
    every operation, and while [FL_OVERFLOW] is set [size()] and [written()]
    are exactly [buffer_size]. *)
Theorem fixed_written_within_capacity t os :
  fixed_wf t → Forall op_ok os →
  ∃ t', run_ops os t = Some t' ∧
        buffer_size t' = buffer_size t ∧
        written t' ≤ buffer_size t' ∧
        (if has_overflowed t'
         then size t' = buffer_size t' ∧ written t' = buffer_size t'
         else size t' = size_ (target t') ∧ written t' = size_ (target t')).
Proof.
  intros Hwf Hok.
  destruct (fixed_run_ops_defined os t Hwf Hok) as (t' & Hrun & Hwf' & Hso & _).
  exists t'. split; [exact Hrun|].
  split; [apply Hso|]. split; [by apply fixed_written_le|].
  rewrite (fixed_size t' Hwf'). unfold written, has_overflowed.
  by destruct (flag_set (flags t') FL_OVERFLOW).
Qed.

(** C10.  For a fixed-capacity target [data()], [begin()] and [end()] refer
    to the caller's buffer [buffer_ptr] after every operation, also once the
    buffer has been redirected to the 32-byte discard array: the contents a
    caller sees are read from the caller's region, which the discard array
    is apart from. *)
Theorem fixed_data_is_caller_buffer t os :
  fixed_wf t → Forall op_ok os →
  ∃ t', run_ops os t = Some t' ∧
        data t' = buffer_ptr t ∧ begin t' = buffer_ptr t ∧
        end_ t' = ptr_add (buffer_ptr t) (size t') ∧
        contents t' = load_bytes (mem t') (buffer_ptr t) (size t') ∧
        blk (data t') ≠ blk (discard t') ∧
        (if has_overflowed t'
         then ptr_ (target t') = discard t' ∧ capacity_ (target t') = discard_size
         else ptr_ (target t') = buffer_ptr t).
Proof.
  intros Hwf Hok.
  destruct (fixed_run_ops_defined os t Hwf Hok) as (t' & Hrun & Hwf' & Hso & _).
  exists t'. split; [exact Hrun|].
  destruct Hso as (_ & Hbp & _).
  pose proof (fixed_data t' Hwf') as Hd. rewrite Hbp in Hd.
  unfold begin, end_, contents. rewrite Hd.
  do 4 (split; [done|]). destruct Hwf' as [_ _ _ _ Ha Ht]. rewrite Hbp in *.
  split; [done|]. destruct (has_overflowed t'); tauto.
Qed.

(** C5.  A [format_to_fixed_z] made from [(dst, last)], with capacity
    [C = last - dst], that received [k ≤ C] bytes: [finalise()] stores the one
    byte ['\0'] at [dst + k] and returns [dst + k], one past the last byte of
    the contents, which stay in place. *)
Theorem finalise_terminates_contents (dst last : pointer) (C : nat) (m : memory) ws :
  to_size_t (ptr_diff last dst) = C →
  valid_range m dst (C + 1) →
  length (written_bytes ws) ≤ C →
  ∃ z z',
    run_writes_z ws (format_to_fixed_z dst last m) = Some z ∧
    finalise z = Some (ptr_add dst (length (written_bytes ws)), z') ∧
    store (mem z) (ptr_add dst (length (written_bytes ws))) "000"%byte = Some (mem z') ∧
    z' = FixedZ (with_mem (mem z') z) dst ∧
    load (mem z') (ptr_add dst (length (written_bytes ws))) = Some "000"%byte ∧
    load_bytes (mem z') dst (length (written_bytes ws)) = Some (written_bytes ws) ∧
    contents z' = Some (written_bytes ws).
Proof.
  intros HC Hvalid Hk.
  assert (valid_range m dst C) as Hvalid0 by (eapply valid_range_le; [done | lia]).
  destruct (format_to_fixed_facts dst C m Hvalid0) as (Hwf & Hov & Hcs & Hbp & Hbs & Hsh).
  destruct (fixed_writes_result ws _ [] Hwf Hov Hcs)
    as (t' & Hrun & Hwf' & Hso & Hsh' & Hd & Hres).
  rewrite Hbp in Hd. rewrite Hbs in Hres. simpl in Hres.
  case_decide; [|lia]. destruct Hres as (Hsz & Hov' & Hc).
  set (k := length (written_bytes ws)) in *.
  assert (written t' = k) as Hw by (by rewrite <- fixed_size).
  destruct (store_bytes_is_Some (mem t') (ptr_add dst k) ["000"%byte]) as [m' Hm'].
  { apply valid_range_add. apply Hsh', Hsh.
    eapply valid_range_le; [exact Hvalid | simpl; lia]. }
  assert (load_bytes m' dst k = Some (written_bytes ws)) as Hload.
  { unfold contents in Hc. rewrite Hd, Hsz in Hc. rewrite <- Hc.
    eapply load_bytes_store_before; [exact Hm' | done | simpl; lia]. }
  exists (FixedZ t' dst), (FixedZ (with_mem m' t') dst).
  split; [|split; [|split; [|split; [|split; [|split]]]]].
  - unfold run_writes_z. rewrite format_to_fixed_z_base, HC, Hrun. done.
  - unfold finalise. simpl. rewrite Hw, store_is_store_bytes, Hm'. done.
  - simpl. by rewrite store_is_store_bytes.
  - done.
  - simpl. eapply load_store_same. by rewrite store_is_store_bytes.
  - exact Hload.
  - change (load_bytes m' (data t') (size t') = Some (written_bytes ws)).
    by rewrite Hd, Hsz.
Qed.

(** C6.  For [n] up to the current [size()], [restore_size(n)] makes
    [size()] equal to [n] and keeps the first [n] bytes; a fixed-capacity
    target is back to normal afterwards: [has_overflowed()] is false and
    [written()] is [n]. *)
Theorem restore_size_resets t (n : nat) :
  target_wf t → n ≤ size t →
  ∃ t', restore_size n t = Some t' ∧ target_wf t' ∧
        size t' = n ∧ has_overflowed t' = false ∧
        contents t' = take n <$> contents t ∧
        match vptr t with
        | format_to_fixed_base_class => written t' = n
        | basic_memory_buffer => size_ (target t') = n
        end.
Proof.
  unfold target_wf. destruct (vptr t) eqn:Hv; intros Hwf Hn.
  - destruct (buffer_restore_size n t Hwf) as (t' & Hres & Hwf' & Hso & Hfit).
    pose proof Hwf as [_ _ _ Hfill]. rewrite buffer_size_is in Hn by done.
    specialize (Hfit ltac:(lia)). subst t'.
    exists (Fmt.set_size n t). split; [done|]. split.
    { destruct Hso as (-> & _). by rewrite Hv. }
    split; [by rewrite buffer_size_is|]. split; [by apply buffer_has_overflowed|].
    split; [|done].
    destruct (buffer_contents_is_Some t Hwf) as [cs Hcs]. rewrite Hcs. simpl.
    rewrite buffer_contents in * by done. simpl.
    by eapply load_bytes_take.
  - destruct (fixed_restore_size n t Hwf) as (t' & Hres & Hwf' & Hso & Hmem & Hfit).
    rewrite fixed_size in Hn by done. destruct (Hfit Hn) as (Hov' & Hw').
    exists t'. split; [done|]. split.
    { destruct Hso as (-> & _). by rewrite Hv. }
    split; [by rewrite fixed_size|]. split; [done|]. split; [|done].
    destruct (fixed_contents_is_Some t Hwf) as [cs Hcs]. rewrite Hcs. simpl.
    rewrite fixed_contents in * by done.
    destruct Hso as (_ & -> & _). rewrite Hmem, Hw'.
    by eapply load_bytes_take.
Qed.


(** C8.  [format_buffer::c_str()] keeps the logical size and the stored
    bytes, reserves at most once, and only when [size() == capacity()], so
    that the byte at offset [size()] lies within the capacity, stores ['\0']
    there and nothing else, and returns [data()]. *)
Theorem c_str_terminates_past_end t :
  buffer_wf t →
  ∃ p t' t1,
    c_str t = Some (p, t') ∧
    p = format_buffer_data t' ∧ p = data t' ∧
    format_buffer_size t' = format_buffer_size t ∧ size t' = size t ∧
    contents t' = contents t ∧ to_string t' = to_string t ∧
    (if decide (format_buffer_size t = format_buffer_capacity t)
     then Fmt.try_reserve (format_buffer_capacity t + 1) t else Some t) = Some t1 ∧
    format_buffer_size t1 < format_buffer_capacity t1 ∧
    store (mem t1) (format_buffer_end t1) "000"%byte = Some (mem t') ∧
    t' = with_mem (mem t') t1 ∧
    load (mem t') (format_buffer_end t') = Some "000"%byte ∧
    format_buffer_size t' < format_buffer_capacity t'.
Proof.
  intros Hwf.
  destruct (buffer_c_str t Hwf)
    as (t1 & m & Hres & Hm & Hc & Hwf1 & Hwf' & Hso & Hsz & Hroom & Hcs).
  exists (format_buffer_data t1), (with_mem m t1), t1.
  split; [exact Hc|]. split; [done|]. split; [by rewrite buffer_data|].
  split; [exact Hsz|]. split; [by rewrite !buffer_size_is|].
  split; [exact Hcs|]. split.
  { unfold to_string. rewrite <- !buffer_contents by done. exact Hcs. }
  split; [exact Hres|]. split; [exact Hroom|]. split; [exact Hm|].
  split; [done|]. split; [|exact Hroom].
  by eapply load_store_same.
Qed.

Lemma observe_eq t1 t2 cs :
  contents t1 = Some cs → contents t2 = Some cs →
  has_overflowed t1 = has_overflowed t2 → observe t1 = observe t2.
Proof.
  intros H1 H2 Hov. unfold observe. rewrite H1, H2, Hov.
  unfold contents in *. apply load_bytes_length in H1, H2. congruence.
Qed.

(** C9.  Rendering a template with its arguments into a buffer-backed target
    and into a fixed-capacity target that the result fits into gives the same
    bytes and the same [size()]; and on any target, [format] (and [vformat])
    is the same, as far as a caller can see, as rendering into a temporary
    [format_buffer] and appending its bytes. *)
Theorem format_is_render_then_append
    (g f t : format_target) (fmtstr : fmt_string) (args : fmt_args)
    (cs : list byte) (m : memory) :
  buffer_wf g → fixed_wf f → target_wf t →
  has_overflowed f = false →
  contents g = Some cs → contents f = Some cs →
  length cs + length (concat (render fmtstr args)) ≤ buffer_size f →
  (∃ g' f', format fmtstr args g = Some g' ∧ format fmtstr args f = Some f' ∧
            contents g' = contents f' ∧ size g' = size f' ∧
            contents g' = Some (cs ++ concat (render fmtstr args))) ∧
  (∃ tmp bytes t1 t2,
      format fmtstr args (format_buffer m) = Some tmp ∧
      to_string tmp = Some bytes ∧
      format fmtstr args t = Some t1 ∧
      vformat fmtstr args t = Some t1 ∧
      append bytes t = Some t2 ∧
      observe t1 = observe t2).
Proof.
  intros Hg Hf Ht Hov Hcg Hcf Hfit. split.
  - destruct (buffer_run_write (w_format fmtstr args) g cs Hg Hcg)
      as (g' & Hrg & Hwg & _ & Hcg').
    destruct (fixed_run_write (w_format fmtstr args) f cs Hf Hcf)
      as (f' & Hrf & Hwf' & _ & _ & Hcf' & _).
    simpl in *. exists g', f'. split; [done|]. split; [done|].
    rewrite take_ge in Hcf' by (rewrite length_app; lia).
    split; [congruence|]. split; [|done].
    unfold contents in Hcg', Hcf'. apply load_bytes_length in Hcg', Hcf'. congruence.
  - destruct (format_buffer_wf m) as (Hwf0 & Hcs0).
    destruct (buffer_run_write (w_format fmtstr args) _ [] Hwf0 Hcs0)
      as (tmp & Hrt & Hwt & _ & Hct).
    simpl in Hrt, Hct. exists tmp, (concat (render fmtstr args)).
    assert (to_string tmp = Some (concat (render fmtstr args))) as Hts.
    { unfold to_string. by rewrite <- buffer_contents. }
    unfold target_wf in Ht. destruct (vptr t) eqn:Hv.
    + destruct (buffer_contents_is_Some t Ht) as [ct Hct0].
      destruct (buffer_run_write (w_format fmtstr args) t ct Ht Hct0)
        as (t1 & Hr1 & Hw1 & _ & Hc1).
      destruct (buffer_run_write (w_append (concat (render fmtstr args))) t ct Ht Hct0)
        as (t2 & Hr2 & Hw2 & _ & Hc2).
      simpl in *. exists t1, t2. do 3 (split; [done|]). split; [exact Hr1|].
      split; [done|]. eapply observe_eq; [done..|].
      by rewrite !buffer_has_overflowed.
    + destruct (fixed_contents_is_Some t Ht) as [ct Hct0].
      destruct (fixed_run_write (w_format fmtstr args) t ct Ht Hct0)
        as (t1 & Hr1 & Hw1 & _ & _ & Hc1 & Ho1).
      destruct (fixed_run_write (w_append (concat (render fmtstr args))) t ct Ht Hct0)
        as (t2 & Hr2 & Hw2 & _ & _ & Hc2 & Ho2).
      simpl in *. exists t1, t2. do 3 (split; [done|]). split; [exact Hr1|].
      split; [done|]. eapply observe_eq; [done..|]. congruence.
Qed.

(** C1, as amended.  Once [has_overflowed()] is true, [append], [push_back],
    [format] and [vformat] return at once and leave the target exactly as it
    is; and after any further write calls, [append_ptr_last_func] and
    [append_span_func] included (with writers that stay inside the region they
    are handed), [size()], [has_overflowed()], the contents, [data()] and the
    bytes of the caller's buffer are as they were. *)
Theorem overflowed_target_keeps_size_and_contents t (w : write) os :
  target_wf t → has_overflowed t = true → Forall write_call_ok os →
  run_write w t = Some t ∧
  ∃ t', run_ops os t = Some t' ∧
        observe t' = observe t ∧ data t' = data t ∧
        mem t' !! blk (data t) = mem t !! blk (data t).
Proof.
  intros Hwf Hov Hok. split.
  { destruct w; simpl; unfold append_sv, append, push_back, format, vformat;
      by rewrite Hov. }
  unfold target_wf in Hwf. destruct (vptr t) eqn:Hv.
  { rewrite buffer_has_overflowed in Hov by done. done. }
  rewrite (fixed_data t Hwf).
  destruct (fixed_write_calls_overflowed os t Hwf Hov Hok)
    as (t' & Hrun & Hwf' & Hso & Hov' & Hblk).
  destruct (fixed_observe_overflowed t t' Hwf Hwf' Hso Hov Hov' Hblk) as (Hobs & Hd).
  rewrite (fixed_data t Hwf) in Hd. by exists t'.
Qed.

End Claims.

(** * The statements on concrete targets *)

Section Witnesses.

Import Example.

#[local] Existing Instance Example.engine.

Ltac range_by_evaluation :=
  eexists; split; [vm_compute; reflexivity | vm_compute; lia].

Ltac fixed_wf_by_evaluation :=
  split;
  [ reflexivity | reflexivity | range_by_evaluation | range_by_evaluation
  | vm_compute; lia | vm_compute; repeat split; lia ].

Ltac ops_ok_by_evaluation :=
  repeat constructor; intros room; simpl; rewrite length_take; simpl; lia.

Ltac buffer_wf_by_evaluation :=
  split; [ reflexivity | reflexivity | range_by_evaluation | vm_compute; lia ].

(** C1, as stated, fails: on the overflowed target [append_span_func] is not
    skipped.  It runs its writer, which moves the buffer's size and stores
    into the discard array. *)
Lemma reserve_and_write_runs_after_overflow :
  target_wf overflowed ∧ has_overflowed overflowed = true ∧
  span_writer_ok one_byte ∧
  run_op (op_append_span_func 1 one_byte) overflowed ≠ Some overflowed ∧
  (size_ ∘ target <$> run_op (op_append_span_func 1 one_byte) overflowed)
    = Some (S (size_ (target overflowed))).
Proof.
  split; [|split; [|split; [|split]]].
  - unfold target_wf. change (vptr overflowed) with format_to_fixed_base_class.
    fixed_wf_by_evaluation.
  - reflexivity.
  - intros room. simpl. rewrite length_take. simpl. lia.
  - intros H. apply (f_equal (fmap (size_ ∘ target))) in H.
    vm_compute in H. discriminate.
  - vm_compute. reflexivity.
Qed.

(** C2, as stated, fails for [append_span_func]: a writer with eleven bytes
    to store, announced by [to_reserve = 11], on a target of capacity five
    stores five of them and the target is full, but [has_overflowed()] is
    false. *)
Lemma reserve_and_write_truncates_without_overflow :
  fixed_wf fixed5 ∧ span_writer_ok hello_writer ∧
  fst (hello_writer 11) = hello_world ∧
  buffer_size fixed5 < length hello_world ∧
  ∃ t', run_op (op_append_span_func 11 hello_writer) fixed5 = Some t' ∧
        size t' = 5 ∧ contents t' = Some (take 5 hello_world) ∧
        has_overflowed t' = false.
Proof.
  split; [fixed_wf_by_evaluation|]. split.
  { intros room. simpl. rewrite length_take. lia. }
  split; [reflexivity|]. split; [vm_compute; lia|].
  eexists. split; [vm_compute; reflexivity|].
  split; [reflexivity|]. split; reflexivity.
Qed.

(** C3, as stated, fails for [append_span_func]: after five bytes in a
    target of capacity five, an exact fit, [append_span_func(1, func)] with a
    writer that reports no byte sets [FL_OVERFLOW], although five bytes were
    handed over in total. *)
Lemma reserve_after_exact_fit_overflows :
  fixed_wf fixed5 ∧ Forall op_ok fit_then_reserve ∧
  length (written_bytes exact_fit) + snd (no_byte 32) = buffer_size fixed5 ∧
  ∃ t', run_ops fit_then_reserve fixed5 = Some t' ∧
        size t' = 5 ∧ contents t' = Some (written_bytes exact_fit) ∧
        has_overflowed t' = true.
Proof.
  split; [fixed_wf_by_evaluation|]. split.
  { repeat constructor. intros room. simpl. lia. }
  split; [reflexivity|].
  eexists. split; [vm_compute; reflexivity|].
  split; [reflexivity|]. split; reflexivity.
Qed.

Lemma overflowed_target_keeps_size_and_contents_witness :
  (target_wf overflowed ∧ has_overflowed overflowed = true ∧
   Forall write_call_ok some_write_calls) ∧
  (run_write (w_push_back "!"%byte) overflowed = Some overflowed ∧
   ∃ t', run_ops some_write_calls overflowed = Some t' ∧
         observe t' = observe overflowed ∧ data t' = data overflowed ∧
         mem t' !! blk (data overflowed) = mem overflowed !! blk (data overflowed)).
Proof.
  assert (target_wf overflowed) as Hwf.
  { unfold target_wf. change (vptr overflowed) with format_to_fixed_base_class.
    fixed_wf_by_evaluation. }
  assert (Forall write_call_ok some_write_calls) as Hok by ops_ok_by_evaluation.
  split; [exact (conj Hwf (conj eq_refl Hok))|].
  exact (overflowed_target_keeps_size_and_contents overflowed (w_push_back "!"%byte)
           some_write_calls Hwf eq_refl Hok).
Defined.

Lemma fixed_overflow_keeps_prefix_witness :
  (valid_range caller_memory dst 5 ∧ to_size_t (ptr_diff (Ptr 1 5) dst) = 5 ∧
   5 < length (written_bytes [w_append hello_world])) ∧
  ((∃ t', run_writes [w_append hello_world] (format_to_fixed dst 5 caller_memory) = Some t' ∧
          size t' = 5 ∧ has_overflowed t' = true ∧ data t' = dst ∧
          load_bytes (mem t') dst 5 = Some (take 5 (written_bytes [w_append hello_world]))) ∧
   (∃ z', run_writes_z [w_append hello_world] (format_to_fixed_z dst (Ptr 1 5) caller_memory)
            = Some z' ∧
          size z' = 5 ∧ has_overflowed z' = true ∧ data z' = dst ∧
          load_bytes (mem z') dst 5 = Some (take 5 (written_bytes [w_append hello_world])))).
Proof.
  assert (valid_range caller_memory dst 5) as H1 by range_by_evaluation.
  assert (to_size_t (ptr_diff (Ptr 1 5) dst) = 5) as H2 by (vm_compute; reflexivity).
  assert (5 < length (written_bytes [w_append hello_world])) as H3 by (vm_compute; lia).
  split; [exact (conj H1 (conj H2 H3))|].
  exact (fixed_overflow_keeps_prefix dst (Ptr 1 5) 5 caller_memory
           [w_append hello_world] H1 H2 H3).
Defined.

Lemma fixed_fit_keeps_input_witness :
  (valid_range caller_memory dst 5 ∧ to_size_t (ptr_diff (Ptr 1 5) dst) = 5 ∧
   length (written_bytes exact_fit) ≤ 5) ∧
  ((∃ t', run_writes exact_fit (format_to_fixed dst 5 caller_memory) = Some t' ∧
          size t' = length (written_bytes exact_fit) ∧ has_overflowed t' = false ∧
          data t' = dst ∧ contents t' = Some (written_bytes exact_fit)) ∧
   (∃ z', run_writes_z exact_fit (format_to_fixed_z dst (Ptr 1 5) caller_memory) = Some z' ∧
          size z' = length (written_bytes exact_fit) ∧ has_overflowed z' = false ∧
          data z' = dst ∧ contents z' = Some (written_bytes exact_fit))).
Proof.
  assert (valid_range caller_memory dst 5) as H1 by range_by_evaluation.
  assert (to_size_t (ptr_diff (Ptr 1 5) dst) = 5) as H2 by (vm_compute; reflexivity).
  assert (length (written_bytes exact_fit) ≤ 5) as H3 by (vm_compute; lia).
  split; [exact (conj H1 (conj H2 H3))|].
  exact (fixed_fit_keeps_input dst (Ptr 1 5) 5 caller_memory exact_fit H1 H2 H3).
Defined.

Lemma fixed_written_within_capacity_witness :
  (fixed_wf fixed5 ∧ Forall op_ok some_ops) ∧
  (∃ t', run_ops some_ops fixed5 = Some t' ∧
         buffer_size t' = buffer_size fixed5 ∧
         written t' ≤ buffer_size t' ∧
         (if has_overflowed t'
          then size t' = buffer_size t' ∧ written t' = buffer_size t'
          else size t' = size_ (target t') ∧ written t' = size_ (target t'))).
Proof.
  assert (fixed_wf fixed5) as Hwf by fixed_wf_by_evaluation.
  assert (Forall op_ok some_ops) as Hok by ops_ok_by_evaluation.
  split; [exact (conj Hwf Hok)|].
  exact (fixed_written_within_capacity fixed5 some_ops Hwf Hok).
Defined.

Lemma fixed_data_is_caller_buffer_witness :
  (fixed_wf fixed5 ∧ Forall op_ok some_ops) ∧
  (∃ t', run_ops some_ops fixed5 = Some t' ∧
         data t' = buffer_ptr fixed5 ∧ begin t' = buffer_ptr fixed5 ∧
         end_ t' = ptr_add (buffer_ptr fixed5) (size t') ∧
         contents t' = load_bytes (mem t') (buffer_ptr fixed5) (size t') ∧
         blk (data t') ≠ blk (discard t') ∧
         (if has_overflowed t'
          then ptr_ (target t') = discard t' ∧ capacity_ (target t') = discard_size
          else ptr_ (target t') = buffer_ptr fixed5)).
Proof.
  assert (fixed_wf fixed5) as Hwf by fixed_wf_by_evaluation.
  assert (Forall op_ok some_ops) as Hok by ops_ok_by_evaluation.
  split; [exact (conj Hwf Hok)|].
  exact (fixed_data_is_caller_buffer fixed5 some_ops Hwf Hok).
Defined.

Lemma finalise_terminates_contents_witness :
  (to_size_t (ptr_diff (Ptr 1 4) dst) = 4 ∧ valid_range caller_memory dst (4 + 1) ∧
   length (written_bytes [w_append ["a"; "b"]%byte]) ≤ 4) ∧
  (∃ z z',
    run_writes_z [w_append ["a"; "b"]%byte] (format_to_fixed_z dst (Ptr 1 4) caller_memory)
      = Some z ∧
    finalise z = Some (ptr_add dst (length (written_bytes [w_append ["a"; "b"]%byte])), z') ∧
    store (mem z) (ptr_add dst (length (written_bytes [w_append ["a"; "b"]%byte]))) "000"%byte
      = Some (mem z') ∧
    z' = FixedZ (with_mem (mem z') z) dst ∧
    load (mem z') (ptr_add dst (length (written_bytes [w_append ["a"; "b"]%byte])))
      = Some "000"%byte ∧
    load_bytes (mem z') dst (length (written_bytes [w_append ["a"; "b"]%byte]))
      = Some (written_bytes [w_append ["a"; "b"]%byte]) ∧
    contents z' = Some (written_bytes [w_append ["a"; "b"]%byte])).
Proof.
  assert (to_size_t (ptr_diff (Ptr 1 4) dst) = 4) as H1 by (vm_compute; reflexivity).
  assert (valid_range caller_memory dst (4 + 1)) as H2 by range_by_evaluation.
  assert (length (written_bytes [w_append ["a"; "b"]%byte]) ≤ 4) as H3 by (vm_compute; lia).
  split; [exact (conj H1 (conj H2 H3))|].
  exact (finalise_terminates_contents dst (Ptr 1 4) 4 caller_memory
           [w_append ["a"; "b"]%byte] H1 H2 H3).
Defined.

Lemma restore_size_resets_witness :
  (target_wf overflowed ∧ 3 ≤ size overflowed) ∧
  (∃ t', restore_size 3 overflowed = Some t' ∧ target_wf t' ∧
         size t' = 3 ∧ has_overflowed t' = false ∧
         contents t' = take 3 <$> contents overflowed ∧
         match vptr overflowed with
         | format_to_fixed_base_class => written t' = 3
         | basic_memory_buffer => size_ (target t') = 3
         end).
Proof.
  assert (target_wf overflowed) as Hwf.
  { unfold target_wf. change (vptr overflowed) with format_to_fixed_base_class.
    fixed_wf_by_evaluation. }
  assert (3 ≤ size overflowed) as Hn by (vm_compute; lia).
  split; [exact (conj Hwf Hn)|].
  exact (restore_size_resets overflowed 3 Hwf Hn).
Defined.


Lemma c_str_terminates_past_end_witness :
  buffer_wf full_buffer ∧
  (∃ p t' t1,
    c_str full_buffer = Some (p, t') ∧
    p = format_buffer_data t' ∧ p = data t' ∧
    format_buffer_size t' = format_buffer_size full_buffer ∧ size t' = size full_buffer ∧
    contents t' = contents full_buffer ∧ to_string t' = to_string full_buffer ∧
    (if decide (format_buffer_size full_buffer = format_buffer_capacity full_buffer)
     then Fmt.try_reserve (format_buffer_capacity full_buffer + 1) full_buffer
     else Some full_buffer) = Some t1 ∧
    format_buffer_size t1 < format_buffer_capacity t1 ∧
    store (mem t1) (format_buffer_end t1) "000"%byte = Some (mem t') ∧
    t' = with_mem (mem t') t1 ∧
    load (mem t') (format_buffer_end t') = Some "000"%byte ∧
    format_buffer_size t' < format_buffer_capacity t').
Proof.
  assert (buffer_wf full_buffer) as Hwf by buffer_wf_by_evaluation.
  split; [exact Hwf|].
  exact (c_str_terminates_past_end full_buffer Hwf).
Defined.

Lemma format_is_render_then_append_witness :
  (buffer_wf (format_buffer ∅) ∧ fixed_wf fixed5 ∧ target_wf overflowed ∧
   has_overflowed fixed5 = false ∧
   contents (format_buffer ∅) = Some [] ∧ contents fixed5 = Some [] ∧
   length (@nil byte) + length (concat (render ["a"; "b"]%byte ["c"]%byte))
   ≤ buffer_size fixed5) ∧
  ((∃ g' f', format ["a"; "b"]%byte ["c"]%byte (format_buffer ∅) = Some g' ∧
             format ["a"; "b"]%byte ["c"]%byte fixed5 = Some f' ∧
             contents g' = contents f' ∧ size g' = size f' ∧
             contents g' = Some ([] ++ concat (render ["a"; "b"]%byte ["c"]%byte))) ∧
   (∃ tmp bytes t1 t2,
      format ["a"; "b"]%byte ["c"]%byte (format_buffer caller_memory) = Some tmp ∧
      to_string tmp = Some bytes ∧
      format ["a"; "b"]%byte ["c"]%byte overflowed = Some t1 ∧
      vformat ["a"; "b"]%byte ["c"]%byte overflowed = Some t1 ∧
      append bytes overflowed = Some t2 ∧
      observe t1 = observe t2)).
Proof.
  assert (buffer_wf (format_buffer ∅)) as Hg by buffer_wf_by_evaluation.
  assert (fixed_wf fixed5) as Hf by fixed_wf_by_evaluation.
  assert (target_wf overflowed) as Ht.
  { unfold target_wf. change (vptr overflowed) with format_to_fixed_base_class.
    fixed_wf_by_evaluation. }
  assert (has_overflowed fixed5 = false) as Hov by reflexivity.
  assert (contents (format_buffer ∅) = Some []) as Hcg by (vm_compute; reflexivity).
  assert (contents fixed5 = Some []) as Hcf by (vm_compute; reflexivity).
  assert (length (@nil byte) + length (concat (render ["a"; "b"]%byte ["c"]%byte))
          ≤ buffer_size fixed5) as Hfit by (vm_compute; lia).
  split; [exact (conj Hg (conj Hf (conj Ht (conj Hov (conj Hcg (conj Hcf Hfit))))))|].
  exact (format_is_render_then_append (format_buffer ∅) fixed5 overflowed
           ["a"; "b"]%byte ["c"]%byte [] caller_memory Hg Hf Ht Hov Hcg Hcf Hfit).
Defined.

End Witnesses.

(** * Where a fixed target stores *)

Section StoreBounds.

Context {E : Engine}.

Implicit Types (t : format_target) (m : memory) (p q : pointer).

Lemma changes_within_refl p n d m : changes_within p n d m m.
Proof. by intros q _ _. Qed.

Lemma changes_within_trans p n d m1 m2 m3 :
  changes_within p n d m1 m2 → changes_within p n d m2 m3 → changes_within p n d m1 m3.
Proof. intros H1 H2 q Hd Hq. rewrite (H2 q Hd Hq). by apply H1. Qed.

Lemma load_store_bytes_outside m m' p' bs q :
  store_bytes m p' bs = Some m' →
  (blk q ≠ blk p' ∨ off q < off p' ∨ off p' + length bs ≤ off q) →
  load m' q = load m q.
Proof.
  intros Hs Hq. unfold load.
  destruct (decide (blk q = blk p')) as [Heq|Hne].
  2:{ by rewrite (store_bytes_other _ _ _ _ _ Hs Hne). }
  destruct Hq as [Hq|Hq]; [done|].
  destruct (store_bytes_same _ _ _ _ Hs) as (l & Hl & Hlen & Hm').
  rewrite Heq, Hl, Hm'. simpl. destruct Hq as [Hq|Hq].
  - rewrite lookup_app_l by (rewrite length_take; lia).
    by rewrite lookup_take_lt.
  - rewrite lookup_app_r by (rewrite length_take; lia).
    rewrite lookup_app_r by (rewrite length_take; lia).
    rewrite lookup_drop, length_take. f_equal. lia.
Qed.

Lemma changes_within_store_region p n d m m' p' bs :
  store_bytes m p' bs = Some m' →
  blk p' = blk p → off p ≤ off p' → off p' + length bs ≤ off p + n →
  changes_within p n d m m'.
Proof.
  intros Hs Hb Hlo Hhi q _ Hq. eapply load_store_bytes_outside; [exact Hs|].
  rewrite Hb. destruct Hq as [Hq|[Hq|Hq]]; [by left | right; left; lia | right; right; lia].
Qed.

Lemma changes_within_store_discard p n d m m' p' bs :
  store_bytes m p' bs = Some m' → blk p' = d → changes_within p n d m m'.
Proof.
  intros Hs Hb q Hd _. eapply load_store_bytes_outside; [exact Hs|].
  left. by rewrite Hb.
Qed.

(** A store through the buffer of a well-formed fixed target, within its
    capacity, stays in the caller's region or in the discard array. *)
Lemma fixed_store_within t m bs :
  fixed_wf t →
  size_ (target t) + length bs ≤ capacity_ (target t) →
  store_bytes (mem t) (ptr_add (ptr_ (target t)) (size_ (target t))) bs = Some m →
  changes_within (buffer_ptr t) (buffer_size t) (blk (discard t)) (mem t) m.
Proof.
  intros [_ _ _ _ _ Ht] Hfit Hm. destruct (has_overflowed t).
  - destruct Ht as (Hp & _). eapply changes_within_store_discard; [exact Hm|].
    simpl. by rewrite Hp.
  - destruct Ht as (Hp & Hc & _). eapply changes_within_store_region; [exact Hm|..].
    + simpl. by rewrite Hp.
    + simpl. rewrite Hp. lia.
    + simpl. rewrite Hp. lia.
Qed.

Lemma fixed_append_loop_within fuel : ∀ input t t',
  fixed_wf t → Fmt.append_loop fuel input t = Some t' →
  changes_within (buffer_ptr t) (buffer_size t) (blk (discard t)) (mem t) (mem t').
Proof.
  induction fuel as [|fuel IH]; intros input t t' Hwf Hrun.
  - destruct input; [|done]. injection Hrun as <-. apply changes_within_refl.
  - destruct input as [|b input'] eqn:Hin.
    { injection Hrun as <-. apply changes_within_refl. }
    rewrite <- Hin in *. assert (input ≠ []) as Hne by (by rewrite Hin).
    rewrite append_loop_round in Hrun by done.
    destruct (fixed_contents_is_Some t Hwf) as [cs Hcs].
    destruct (fixed_round input t cs Hwf Hcs Hne)
      as (t1 & m & k & Hres & Hk & Hk0 & Hm & Hwf2 & Hso2 & _).
    destruct (fixed_try_reserve (size_ (target t) + length input) t Hwf)
      as (t1' & Hres' & Hwf1 & Hso1 & Hmem1 & _).
    rewrite Hres in Hres'. injection Hres' as <-.
    rewrite Hres in Hrun. simpl in Hrun. rewrite <- Hk, Hm in Hrun. simpl in Hrun.
    destruct Hso1 as (_ & Hbp1 & Hbs1 & Hd1 & _).
    destruct Hso2 as (_ & Hbp2 & Hbs2 & Hd2 & _).
    eapply changes_within_trans.
    + rewrite <- Hmem1, <- Hbp1, <- Hbs1, <- Hd1.
      eapply (fixed_store_within t1 m (take k input) Hwf1); [|exact Hm].
      rewrite length_take. destruct (fixed_target_range t1 Hwf1) as (_ & Hfill).
      rewrite Hk. case_decide; lia.
    + specialize (IH _ _ _ Hwf2 Hrun). simpl in IH, Hbp2, Hbs2, Hd2.
      by rewrite Hbp2, Hbs2, Hd2 in IH.
Qed.

Lemma fixed_deliver_within pieces : ∀ t t',
  fixed_wf t → Fmt.deliver pieces t = Some t' →
  changes_within (buffer_ptr t) (buffer_size t) (blk (discard t)) (mem t) (mem t').
Proof.
  induction pieces as [|piece pieces IH]; intros t t' Hwf Hrun.
  - injection Hrun as <-. apply changes_within_refl.
  - simpl in Hrun. destruct (Fmt.append piece t) as [t1|] eqn:Happ; [|done].
    simpl in Hrun. destruct (fixed_contents_is_Some t Hwf) as [cs Hcs].
    destruct (fixed_append piece t cs Hwf Hcs) as (t1' & Happ' & Hwf1 & Hso & _).
    rewrite Happ in Happ'. injection Happ' as <-.
    destruct Hso as (_ & Hbp & Hbs & Hd & _).
    eapply changes_within_trans.
    + by eapply fixed_append_loop_within.
    + specialize (IH _ _ Hwf1 Hrun). by rewrite Hbp, Hbs, Hd in IH.
Qed.

Lemma fixed_run_write_within w t t' :
  fixed_wf t → run_write w t = Some t' →
  changes_within (buffer_ptr t) (buffer_size t) (blk (discard t)) (mem t) (mem t').
Proof.
  intros Hwf Hrun.
  destruct w; simpl in Hrun; unfold append_sv, append, push_back, format, vformat in Hrun;
    (destruct (has_overflowed t);
     [injection Hrun as <-; apply changes_within_refl|]).
  - by eapply fixed_append_loop_within.
  - by eapply fixed_append_loop_within.
  - rewrite push_back_is_append in Hrun; [by eapply fixed_append_loop_within|].
    intros t1 Hres.
    destruct (fixed_try_reserve (size_ (target t) + 1) t Hwf)
      as (t1' & Hres' & _ & _ & _ & _ & Hroom & _).
    rewrite Hres in Hres'. injection Hres' as <-. apply Hroom. lia.
  - by eapply fixed_deliver_within.
  - by eapply fixed_deliver_within.
Qed.

Lemma fixed_append_span_func_within n func t t' :
  fixed_wf t → span_writer_ok func → append_span_func n func t = Some t' →
  changes_within (buffer_ptr t) (buffer_size t) (blk (discard t)) (mem t) (mem t').
Proof.
  intros Hwf Hok. unfold append_span_func.
  destruct (fixed_try_reserve (size_add (size_ (target t)) n) t Hwf)
    as (t1 & -> & Hwf1 & Hso & Hmem & _). simpl.
  destruct (fixed_target_range t1 Hwf1) as (_ & Hfill).
  destruct Hso as (_ & Hbp & Hbs & Hd & _).
  case_decide as Hfull.
  { intros [= <-]. rewrite Hmem. apply changes_within_refl. }
  specialize (Hok (capacity_ (target t1) - size_ (target t1))).
  destruct (func _) as [stored reported]. simpl in Hok.
  destruct (store_bytes _ _ stored) as [m|] eqn:Hm; simpl; [|done].
  pose proof (fixed_with_mem _ _ _ _ Hwf1 Hm) as Hwf2.
  destruct (fixed_try_resize (size_add (size_ (target t1)) reported) _
              (fixed_wf_set_size _ Hwf2)) as (t2 & -> & _ & _ & Hmem' & _).
  intros [= <-]. rewrite Hmem'. simpl. rewrite <- Hmem, <- Hbp, <- Hbs, <- Hd.
  eapply fixed_store_within; [done | | exact Hm]. lia.
Qed.

Lemma fixed_append_ptr_last_func_within n func t t' :
  fixed_wf t → ptr_last_writer_ok func → append_ptr_last_func n func t = Some t' →
  changes_within (buffer_ptr t) (buffer_size t) (blk (discard t)) (mem t) (mem t').
Proof.
  intros Hwf Hok. unfold append_ptr_last_func.
  destruct (fixed_try_reserve (size_add (size_ (target t)) n) t Hwf)
    as (t1 & -> & Hwf1 & Hso & Hmem & _). simpl.
  destruct (fixed_target_range t1 Hwf1) as (_ & Hfill).
  destruct Hso as (_ & Hbp & Hbs & Hd & _).
  case_decide as Hroom.
  2:{ intros [= <-]. rewrite Hmem. apply changes_within_refl. }
  match goal with |- context [func ?room] => specialize (Hok room) end.
  unfold ptr_diff in *. simpl in Hok.
  destruct (func _) as [stored used]. simpl in Hok.
  destruct (store_bytes _ _ stored) as [m|] eqn:Hm; simpl; [|done].
  pose proof (fixed_with_mem _ _ _ _ Hwf1 Hm) as Hwf2.
  match goal with |- Fmt.try_resize ?k _ = _ → _ =>
    destruct (fixed_try_resize k _ (fixed_wf_set_size _ Hwf2))
      as (t2 & -> & _ & _ & Hmem' & _) end.
  intros [= <-]. rewrite Hmem'. simpl. rewrite <- Hmem, <- Hbp, <- Hbs, <- Hd.
  eapply fixed_store_within; [done | | exact Hm]. lia.
Qed.

Lemma fixed_run_op_within o t t' :
  fixed_wf t → op_ok o → run_op o t = Some t' →
  changes_within (buffer_ptr t) (buffer_size t) (blk (discard t)) (mem t) (mem t').
Proof.
  intros Hwf Hok Hrun. destruct o as [w|n func|n func|n]; simpl in *.
  - by eapply fixed_run_write_within.
  - by eapply fixed_append_ptr_last_func_within.
  - by eapply fixed_append_span_func_within.
  - destruct (fixed_restore_size n t Hwf) as (t1 & Hrun1 & _ & _ & Hmem & _).
    rewrite Hrun in Hrun1. injection Hrun1 as <-. rewrite Hmem.
    apply changes_within_refl.
Qed.

(** X1.  Whatever is done to a fixed-capacity target (writes, both
    reserve-and-write forms with writers that stay in the region they are
    handed, [restore_size]), it stores only into the [buffer_size] bytes at
    [buffer_ptr] and into its own discard array: every other byte of memory
    reads as before, and no array changes its length. *)
Theorem fixed_target_stores_within_bounds t os :
  fixed_wf t → Forall op_ok os →
  ∃ t', run_ops os t = Some t' ∧
        changes_within (buffer_ptr t) (buffer_size t) (blk (discard t)) (mem t) (mem t') ∧
        same_shape (mem t) (mem t').
Proof.
  revert t. induction os as [|o os IH]; intros t Hwf Hok.
  - exists t. split; [done|]. split; [apply changes_within_refl | apply same_shape_refl].
  - apply Forall_cons in Hok as (Ho & Hos).
    destruct (fixed_run_op_defined o t Hwf Ho) as [t1 Hrun1].
    destruct (fixed_run_op o t t1 Hwf Hrun1) as (Hwf1 & Hso1 & Hsh1).
    pose proof (fixed_run_op_within o t t1 Hwf Ho Hrun1) as Hin1.
    destruct (IH t1 Hwf1 Hos) as (t' & Hrun & Hin & Hsh).
    destruct Hso1 as (_ & Hbp & Hbs & Hd & _). rewrite Hbp, Hbs, Hd in Hin.
    exists t'. split.
    + unfold run_ops in *. simpl. rewrite Hrun1. exact Hrun.
    + split; [by eapply changes_within_trans | by eapply same_shape_trans].
Qed.

End StoreBounds.

(** * Reserve-and-write on a fixed target that has not overflowed *)

Section ReserveAndWrite.

Context {E : Engine}.

Implicit Types (t : format_target) (func : writer).

Lemma size_add_small a b : (Z.of_nat (a + b) < 2 ^ 64)%Z → size_add a b = a + b.
Proof. intros H. unfold size_add, to_size_t. rewrite Z.mod_small by lia. lia. Qed.

Lemma size_add_0_le a : size_add a 0 ≤ a.
Proof.
  unfold size_add, to_size_t. rewrite Z.add_0_r.
  pose proof (Z.mod_le (Z.of_nat a) (2 ^ 64) ltac:(lia) ltac:(lia)). lia.
Qed.

(** A fixed buffer that is not full does not react to a reservation. *)
Lemma fixed_try_reserve_not_full k t :
  vptr t = format_to_fixed_base_class → size_ (target t) ≠ capacity_ (target t) →
  Fmt.try_reserve k t = Some t.
Proof.
  intros Hc Hne. unfold Fmt.try_reserve, Fmt.grow, Fmt.fixed_grow. rewrite Hc.
  by repeat case_decide.
Qed.

(** What a fixed target that has not overflowed looks like inside. *)
Lemma fixed_normal t :
  fixed_wf t → has_overflowed t = false →
  ptr_ (target t) = buffer_ptr t ∧ capacity_ (target t) = buffer_size t ∧
  size_ (target t) = size t ∧ size t ≤ buffer_size t.
Proof.
  intros Hwf Hov. rewrite (fixed_size t Hwf). destruct Hwf as [_ _ _ _ _ Ht].
  rewrite Hov in Ht. unfold written. unfold has_overflowed in Hov. rewrite Hov.
  tauto.
Qed.

(** X2.  On a fixed-capacity target that is neither full nor overflowed,
    [append_span_func] hands the writer exactly the free rest of the caller's
    region, whatever [to_reserve] asks for; the bytes the writer reports are
    appended and [has_overflowed()] stays false, also when [to_reserve] was
    more than the rest. *)
Theorem append_span_func_gets_the_rest t (to_reserve : nat) func (cs : list byte) :
  fixed_wf t → has_overflowed t = false → contents t = Some cs →
  size t < buffer_size t → (Z.of_nat (buffer_size t) < 2 ^ 64)%Z →
  exact_writer func →
  ∃ t', append_span_func to_reserve func t = Some t' ∧
        has_overflowed t' = false ∧
        size t' = size t + snd (func (buffer_size t - size t)) ∧
        contents t' = Some (cs ++ fst (func (buffer_size t - size t))).
Proof.
  intros Hwf Hov Hcs Hroom Hbound Hexact.
  destruct (fixed_normal t Hwf Hov) as (Hp & Hcap & Hsz & _).
  pose proof Hwf as [Hc Hf Hr _ _ _].
  unfold append_span_func.
  rewrite fixed_try_reserve_not_full by (done || lia). simpl.
  case_decide as Hfull; [lia|]. rewrite Hcap, Hsz.
  specialize (Hexact (buffer_size t - size t)).
  destruct (func (buffer_size t - size t)) as [stored k]. simpl in *.
  destruct Hexact as (-> & Hk).
  destruct (store_bytes_is_Some (mem t) (ptr_add (ptr_ (target t)) (size t)) stored)
    as [m Hm].
  { apply valid_range_add. rewrite Hp. eapply valid_range_le; [exact Hr | lia]. }
  rewrite Hm. simpl.
  pose proof (fixed_with_mem _ _ _ _ Hwf Hm) as Hwf2.
  rewrite size_add_small by lia.
  destruct (fixed_try_resize (size t + length stored) _ (fixed_wf_set_size _ Hwf2))
    as (t' & Hres & Hwf' & _ & _ & _ & Hfit).
  simpl in Hfit. rewrite Hfit in * by lia.
  eexists. split; [exact Hres|].
  assert (has_overflowed (Fmt.set_size (size t + length stored) (with_mem m t)) = false)
    as Hov' by exact Hov.
  split; [exact Hov'|].
  rewrite fixed_contents, fixed_size by done. unfold written.
  unfold has_overflowed in Hov'. rewrite Hov'. simpl. split; [done|].
  rewrite fixed_contents in Hcs by done. unfold written in Hcs.
  unfold has_overflowed in Hov. rewrite Hov, Hsz in Hcs. rewrite Hp in Hm.
  by eapply load_bytes_store_app.
Qed.

(** The reserve-and-write operations start from the buffer that the
    reservation leaves. *)
Lemma append_span_func_from_reserved n func t t1 :
  vptr t1 = format_to_fixed_base_class →
  Fmt.try_reserve (size_add (size_ (target t)) n) t = Some t1 →
  size_ (target t1) ≠ capacity_ (target t1) →
  append_span_func n func t = append_span_func n func t1.
Proof.
  intros Hc Hres Hne. unfold append_span_func.
  rewrite Hres, (fixed_try_reserve_not_full _ t1 Hc Hne). done.
Qed.

(** X3.  On a full fixed-capacity target that has not overflowed yet,
    [append_span_func] leaves [size()], the contents and [data()] as they
    were.  When [size() + to_reserve], computed in [size_t], is at most the
    capacity ([to_reserve = 0], or a [to_reserve] so large that the sum wraps
    around) it returns at once and changes nothing; otherwise it sets
    [FL_OVERFLOW], even if the writer then reports no byte.  So, when the sum
    does not wrap, [to_reserve = 0] changes nothing and [to_reserve > 0] sets
    [FL_OVERFLOW]. *)
Theorem append_span_func_on_full_target t (to_reserve : nat) func :
  fixed_wf t → has_overflowed t = false → size t = buffer_size t →
  span_writer_ok func →
  ∃ t', append_span_func to_reserve func t = Some t' ∧
        size t' = size t ∧ contents t' = contents t ∧ data t' = data t ∧
        (if decide (size_add (size t) to_reserve ≤ buffer_size t)
         then t' = t else has_overflowed t' = true) ∧
        ((Z.of_nat (size t + to_reserve) < 2 ^ 64)%Z →
         if decide (to_reserve = 0) then t' = t else has_overflowed t' = true).
Proof.
  intros Hwf Hov Hfull Hok.
  destruct (fixed_normal t Hwf Hov) as (Hp & Hcap & Hsz & _).
  assert (∃ t', append_span_func to_reserve func t = Some t' ∧
        size t' = size t ∧ contents t' = contents t ∧ data t' = data t ∧
        (if decide (size_add (size t) to_reserve ≤ buffer_size t)
         then t' = t else has_overflowed t' = true)) as (t' & Hrun & Hs & Hc & Hd & Hif).
  2:{ exists t'. do 4 (split; [done|]). split; [exact Hif|]. intros Hbound.
      rewrite size_add_small in Hif by done.
      destruct (decide (to_reserve = 0)) as [->|Hpos]; case_decide; (done || lia). }
  rewrite <- Hsz. destruct (decide (size_add (size_ (target t)) to_reserve ≤ buffer_size t))
    as [Hnone|Hmore].
  - exists t. split; [|done]. unfold append_span_func.
    unfold Fmt.try_reserve.
    case_decide; [lia|]. simpl. case_decide; [done | lia].
  - destruct (fixed_try_reserve (size_add (size_ (target t)) to_reserve) t Hwf)
      as (t1 & Hres & Hwf1 & Hso & Hmem & Hwr & Hroom & Hno & _).
    specialize (Hroom ltac:(lia)).
    destruct (has_overflowed t1) eqn:Hov1.
    2:{ rewrite (Hno eq_refl) in Hroom. lia. }
    rewrite (append_span_func_from_reserved _ _ _ t1 (fixed_class _ Hwf1) Hres) by lia.
    destruct (fixed_append_span_func_is_Some to_reserve func t1 Hwf1 Hok) as [t' Hrun].
    destruct (fixed_append_span_func _ _ _ _ Hwf1 Hrun) as (Hwf' & Hso' & _ & Hkeep).
    destruct (Hkeep Hov1) as (Hov' & Hblk).
    destruct (fixed_observe_overflowed t1 t' Hwf1 Hwf' Hso' Hov1 Hov' Hblk) as (Hobs & Hd).
    injection Hobs as Hs' _ Hc'.
    exists t'. split; [exact Hrun|].
    rewrite Hs', Hc', Hd, !fixed_size, !fixed_contents, !fixed_data by done.
    destruct Hso as (_ & -> & _). by rewrite Hwr, Hmem, Hsz, (fixed_size t Hwf).
Qed.

(** X4.  On a fixed-capacity target that has not overflowed and has more
    than one byte free, [append_ptr_last_func] hands the writer the free rest
    less one byte; when the writer returns a pointer within it, the bytes up
    to that pointer are appended, the byte at the returned pointer (the
    writer's terminator) is still inside the caller's region, and
    [has_overflowed()] stays false: the target is never left full. *)
Theorem append_ptr_last_func_keeps_a_byte t (to_reserve : nat) func (cs : list byte) :
  fixed_wf t → has_overflowed t = false → contents t = Some cs →
  size t + 1 < buffer_size t → (Z.of_nat (buffer_size t) < 2 ^ 64)%Z →
  ptr_last_writer_ok func →
  snd (func (buffer_size t - 1 - size t)) ≤ buffer_size t - 1 - size t →
  snd (func (buffer_size t - 1 - size t)) ≤ length (fst (func (buffer_size t - 1 - size t))) →
  ∃ t', append_ptr_last_func to_reserve func t = Some t' ∧
        has_overflowed t' = false ∧
        size t' = size t + snd (func (buffer_size t - 1 - size t)) ∧
        size t' < buffer_size t' ∧
        contents t' = Some (cs ++ take (snd (func (buffer_size t - 1 - size t)))
                                       (fst (func (buffer_size t - 1 - size t)))) ∧
        load_bytes (mem t') (data t')
          (size t + length (fst (func (buffer_size t - 1 - size t))))
        = Some (cs ++ fst (func (buffer_size t - 1 - size t))).
Proof.
  intros Hwf Hov Hcs Hroom Hbound Hok Hused Hstored.
  destruct (fixed_normal t Hwf Hov) as (Hp & Hcap & Hsz & _).
  pose proof Hwf as [Hc Hf Hr _ _ _].
  unfold append_ptr_last_func.
  rewrite fixed_try_reserve_not_full by (done || lia). simpl.
  case_decide as Hlast; [|lia].
  replace (Z.to_nat (ptr_diff (ptr_pred (ptr_add (ptr_ (target t)) (capacity_ (target t))))
                       (ptr_add (ptr_ (target t)) (size_ (target t)))))
    with (buffer_size t - 1 - size t) by (unfold ptr_diff; simpl; lia).
  specialize (Hok (buffer_size t - 1 - size t)).
  destruct (func (buffer_size t - 1 - size t)) as [stored k]. simpl in *.
  destruct (store_bytes_is_Some (mem t) (ptr_add (ptr_ (target t)) (size_ (target t))) stored)
    as [m Hm].
  { apply valid_range_add. rewrite Hp. eapply valid_range_le; [exact Hr | lia]. }
  rewrite Hm. simpl.
  pose proof (fixed_with_mem _ _ _ _ Hwf Hm) as Hwf2.
  replace (to_size_t (ptr_diff (ptr_add (ptr_add (ptr_ (target t)) (size_ (target t))) k)
                        (ptr_ (target t))))
    with (size t + k).
  2:{ unfold to_size_t, ptr_diff. simpl. rewrite Z.mod_small by lia. lia. }
  destruct (fixed_try_resize (size t + k) _ (fixed_wf_set_size _ Hwf2))
    as (t' & Hres & Hwf' & _ & _ & _ & Hfit).
  simpl in Hfit. rewrite Hfit in * by lia.
  eexists. split; [exact Hres|].
  assert (has_overflowed (Fmt.set_size (size t + k) (with_mem m t)) = false) as Hov'
    by exact Hov.
  split; [exact Hov'|].
  rewrite fixed_contents, fixed_size, fixed_data by done. unfold written.
  unfold has_overflowed in Hov'. rewrite Hov'. simpl.
  split; [done|]. split; [lia|].
  rewrite fixed_contents in Hcs by done. unfold written in Hcs.
  unfold has_overflowed in Hov. rewrite Hov in Hcs. rewrite Hp, Hsz in Hm. rewrite Hsz in Hcs.
  pose proof (load_bytes_store_app _ _ _ _ _ _ Hm Hcs) as Hall.
  split; [|exact Hall].
  rewrite (load_bytes_take _ _ _ (size t + k) _ Hall) by lia. f_equal.
  rewrite take_app_ge by (apply load_bytes_length in Hcs; lia).
  apply load_bytes_length in Hcs. rewrite Hcs. f_equal. f_equal. lia.
Qed.

(** X5.  With exactly one byte free, [append_ptr_last_func] does nothing:
    the writer is not run, no byte is stored and [FL_OVERFLOW] is not set,
    whatever [to_reserve] is. *)
Theorem append_ptr_last_func_needs_two_bytes t (to_reserve : nat) func :
  fixed_wf t → has_overflowed t = false → size t + 1 = buffer_size t →
  append_ptr_last_func to_reserve func t = Some t.
Proof.
  intros Hwf Hov Hone.
  destruct (fixed_normal t Hwf Hov) as (Hp & Hcap & Hsz & _).
  unfold append_ptr_last_func.
  rewrite fixed_try_reserve_not_full by (apply Hwf || lia). simpl.
  case_decide; [lia | done].
Qed.

End ReserveAndWrite.

(** * [finalise] and [c_str] once more *)

Section Terminators.

Context {E : Engine}.

Implicit Types (t : format_target) (z : format_to_fixed_z_t).

Lemma store_same (m : memory) p c : load m p = Some c → store m p c = Some m.
Proof.
  unfold load, store. destruct (m !! blk p) as [l|] eqn:Hl; simpl; [|done].
  intros Hc. pose proof (lookup_lt_Some _ _ _ Hc). case_decide; [|lia].
  by rewrite list_insert_id, insert_id.
Qed.

(** X6.  [finalise()] returns [end()], stores the one byte ['\0'] there and
    nothing else: [size()], [has_overflowed()] and the contents are as
    before, so the terminator is not part of the contents; and a second
    [finalise()] returns the same pointer and changes nothing. *)
Theorem finalise_keeps_target z :
  fixed_z_wf z →
  ∃ z', finalise z = Some (end_ z, z') ∧
        store (mem z) (end_ z) "000"%byte = Some (mem z') ∧
        z' = FixedZ (with_mem (mem z') z) (initial_dst z) ∧
        observe z' = observe z ∧
        load (mem z') (end_ z') = Some "000"%byte ∧
        fixed_z_wf z' ∧
        finalise z' = Some (end_ z, z').
Proof.
  intros (Hwf & Hdst & Hlast). pose proof (fixed_written_le z Hwf) as Hle.
  assert (end_ z = ptr_add (initial_dst z) (written z)) as Hend.
  { unfold end_. by rewrite fixed_data, fixed_size, Hdst. }
  destruct (store_bytes_is_Some (mem z) (end_ z) ["000"%byte]) as [m' Hm'].
  { rewrite Hend, Hdst. apply valid_range_add.
    eapply valid_range_le; [exact Hlast | simpl; lia]. }
  rewrite <- store_is_store_bytes in Hm'.
  set (z' := FixedZ (with_mem m' z) (initial_dst z)).
  assert (fixed_wf z') as Hwf'.
  { rewrite store_is_store_bytes in Hm'. by eapply fixed_with_mem. }
  assert (finalise z = Some (end_ z, z')) as Hfin.
  { unfold finalise. by rewrite <- Hend, Hm'. }
  assert (end_ z' = end_ z) as Hend' by done.
  assert (load m' (end_ z) = Some "000"%byte) as Hload by (by eapply load_store_same).
  exists z'. split; [exact Hfin|]. split; [exact Hm'|]. split; [done|]. split.
  { unfold observe. f_equal. change (load_bytes m' (data z) (size z) = contents z).
    unfold contents. rewrite store_is_store_bytes in Hm'.
    eapply load_bytes_store_before; [exact Hm' | |].
    - rewrite Hend, fixed_data, Hdst by done. done.
    - rewrite Hend, fixed_data, fixed_size, Hdst by done. simpl. lia. }
  split; [by rewrite Hend'|]. split.
  { split; [exact Hwf'|]. split; [exact Hdst|].
    rewrite store_is_store_bytes in Hm'. by eapply store_bytes_valid. }
  unfold finalise. change (written z') with (written z).
  change (initial_dst z') with (initial_dst z). rewrite <- Hend.
  change (mem z') with m'. rewrite (store_same m' (end_ z) _ Hload). done.
Qed.

(** X7.  A [format_to_fixed_z] made from [(dst, last)] that received more
    than [C = last - dst] bytes is still terminated inside the caller's array:
    [finalise()] returns [dst + C], that is [last], and the [C + 1] bytes at
    [dst] are the first [C] bytes of the input and ['\0']. *)
Theorem finalise_terminates_truncated (dst last : pointer) (C : nat) (m : memory)
    (ws : list write) :
  to_size_t (ptr_diff last dst) = C →
  valid_range m dst (C + 1) →
  C < length (written_bytes ws) →
  ∃ z z',
    run_writes_z ws (format_to_fixed_z dst last m) = Some z ∧
    finalise z = Some (ptr_add dst C, z') ∧
    has_overflowed z' = true ∧
    load_bytes (mem z') dst (C + 1)
    = Some (take C (written_bytes ws) ++ ["000"%byte]).
Proof.
  intros HC Hvalid Hlong.
  assert (valid_range m dst C) as Hvalid0 by (eapply valid_range_le; [done | lia]).
  destruct (format_to_fixed_facts dst C m Hvalid0) as (Hwf & Hov & Hcs & Hbp & Hbs & Hsh).
  destruct (fixed_writes_result ws _ [] Hwf Hov Hcs)
    as (t' & Hrun & Hwf' & Hso & Hsh' & Hd & Hres).
  rewrite Hbp in Hd. rewrite Hbs in Hres. simpl in Hres.
  case_decide; [lia|]. destruct Hres as (Hsz & Hov' & Hc).
  assert (written t' = C) as Hw by (by rewrite <- fixed_size).
  destruct (store_bytes_is_Some (mem t') (ptr_add dst C) ["000"%byte]) as [m' Hm'].
  { apply valid_range_add. apply Hsh', Hsh. exact Hvalid. }
  exists (FixedZ t' dst), (FixedZ (with_mem m' t') dst).
  split; [|split; [|split]].
  - unfold run_writes_z. rewrite format_to_fixed_z_base, HC, Hrun. done.
  - unfold finalise. simpl. rewrite Hw, store_is_store_bytes, Hm'. done.
  - exact Hov'.
  - simpl. unfold contents in Hc. rewrite Hd, Hsz in Hc.
    exact (load_bytes_store_app _ _ _ _ _ _ Hm' Hc).
Qed.

(** X8.  [c_str()] twice: the second call reserves nothing, returns the same
    pointer and leaves the buffer, terminator included, as the first call
    left it. *)
Theorem c_str_twice t :
  buffer_wf t →
  ∃ p t', c_str t = Some (p, t') ∧ c_str t' = Some (p, t') ∧
          format_buffer_capacity t' ≠ format_buffer_size t'.
Proof.
  intros Hwf.
  destruct (buffer_c_str t Hwf)
    as (t1 & m & _ & Hm & Hc & _ & _ & _ & _ & Hroom & _).
  exists (format_buffer_data t1), (with_mem m t1).
  split; [exact Hc|]. split.
  - unfold c_str, format_buffer_size, format_buffer_capacity. simpl.
    case_decide; [lia|]. simpl.
    change (format_buffer_end (with_mem m t1)) with (format_buffer_end t1).
    rewrite (store_same m (format_buffer_end t1) "000"%byte); [done|].
    by eapply load_store_same.
  - unfold format_buffer_size, format_buffer_capacity. simpl. lia.
Qed.

End Terminators.

(** * Writes seen from the caller *)

Section WritesSeen.

Context {E : Engine}.

Implicit Types (t : format_target) (ws : list write).

Lemma target_wf_contents_is_Some t : target_wf t → is_Some (contents t).
Proof.
  unfold target_wf. destruct (vptr t).
  - apply buffer_contents_is_Some.
  - apply fixed_contents_is_Some.
Qed.

Lemma deliver_nothing pieces t : concat pieces = [] → Fmt.deliver pieces t = Some t.
Proof.
  induction pieces as [|piece pieces IH]; [done|]. simpl.
  intros (-> & Hrest)%app_eq_nil. simpl. by apply IH.
Qed.

Lemma run_write_nothing w t : write_bytes w = [] → run_write w t = Some t.
Proof.
  destruct w; simpl; unfold append_sv, append, push_back, format, vformat, Fmt.vformat_to;
    intros Hb; destruct (has_overflowed t); try done.
  - by rewrite Hb.
  - by rewrite Hb.
  - by apply deliver_nothing.
  - by apply deliver_nothing.
Qed.

(** X9.  Writes that hand over no byte (an empty range, a render that
    produces nothing) leave any target exactly as it is: a full fixed target
    is not flagged as overflowed by them, a full buffer is not grown. *)
Theorem empty_writes_change_nothing ws t :
  written_bytes ws = [] → run_writes ws t = Some t.
Proof.
  unfold written_bytes, run_writes. induction ws as [|w ws IH]; [done|]. simpl.
  intros (Hw & Hrest)%app_eq_nil. rewrite (run_write_nothing w t Hw). simpl.
  by apply IH.
Qed.

(** X10.  On every target [push_back(c)] does what [append] does with the
    one-byte range [c]. *)
Theorem push_back_is_append_of_one (c : byte) t :
  target_wf t → push_back c t = append [c] t.
Proof.
  intros Hwf. unfold push_back, append. destruct (has_overflowed t); [done|].
  apply push_back_is_append. intros t1 Hres. unfold target_wf in Hwf.
  destruct (vptr t) eqn:Hv.
  - destruct (buffer_try_reserve (size_ (target t) + 1) t Hwf)
      as (t1' & Hres' & _ & _ & Hsz & _ & Hcap & _).
    rewrite Hres in Hres'. injection Hres' as <-. lia.
  - destruct (fixed_try_reserve (size_ (target t) + 1) t Hwf)
      as (t1' & Hres' & _ & _ & _ & _ & Hroom & _).
    rewrite Hres in Hres'. injection Hres' as <-. apply Hroom. lia.
Qed.

Lemma run_writes_seen ws t cs :
  target_wf t → contents t = Some cs →
  ∃ t' cs', run_writes ws t = Some t' ∧ target_wf t' ∧ contents t' = Some cs' ∧
            cs' = (match vptr t with
                   | basic_memory_buffer => cs ++ written_bytes ws
                   | format_to_fixed_base_class =>
                       take (buffer_size t) (cs ++ written_bytes ws)
                   end) ∧
            has_overflowed t' =
              (match vptr t with
               | basic_memory_buffer => false
               | format_to_fixed_base_class =>
                   has_overflowed t
                   || bool_decide (buffer_size t < length cs + length (written_bytes ws))
               end).
Proof.
  unfold target_wf. destruct (vptr t) eqn:Hv; intros Hwf Hcs.
  - destruct (buffer_run_writes ws t cs Hwf Hcs) as (t' & Hrun & Hwf' & Hso & Hc).
    exists t', (cs ++ written_bytes ws). split; [done|].
    destruct Hso as (Hv' & _). rewrite Hv', Hv.
    split; [done|]. split; [done|]. split; [done|]. by apply buffer_has_overflowed.
  - destruct (fixed_run_writes ws t cs Hwf Hcs) as (t' & Hrun & Hwf' & Hso & _ & Hc & Hov).
    exists t', (take (buffer_size t) (cs ++ written_bytes ws)). split; [done|].
    destruct Hso as (Hv' & _). rewrite Hv', Hv.
    split; [done|]. split; [exact Hc|]. split; [done | exact Hov].
Qed.

(** X11.  What a caller sees after a run of writes ([size()],
    [has_overflowed()], the contents) depends only on the bytes handed over
    in total, not on how they are cut into [append], [push_back] and
    [format] calls. *)
Theorem writes_seen_by_their_bytes ws ws' t :
  target_wf t → written_bytes ws = written_bytes ws' →
  ∃ t1 t2, run_writes ws t = Some t1 ∧ run_writes ws' t = Some t2 ∧
           observe t1 = observe t2.
Proof.
  intros Hwf Hsame. destruct (target_wf_contents_is_Some t Hwf) as [cs Hcs].
  destruct (run_writes_seen ws t cs Hwf Hcs) as (t1 & c1 & Hr1 & _ & Hc1 & -> & Ho1).
  destruct (run_writes_seen ws' t cs Hwf Hcs) as (t2 & c2 & Hr2 & _ & Hc2 & -> & Ho2).
  exists t1, t2. split; [done|]. split; [done|].
  rewrite <- Hsame in *. eapply observe_eq; [done..|]. congruence.
Qed.

End WritesSeen.

(** * The callback adapter *)

Section Adapter.

Context {E : Engine}.

Implicit Types (t : format_target) (calls : list (fmt_string * fmt_args)).

(** The bytes the calls of a callback body render, in order. *)
Lemma written_bytes_formats calls :
  concat (map write_bytes (map (λ c, w_format c.1 c.2) calls))
  = concat (map (λ c, concat (render c.1 c.2)) calls).
Proof. by rewrite map_map. Qed.

Lemma fixed_format_each calls : ∀ t cs,
  fixed_wf t → contents t = Some cs →
  ∃ t', format_each calls (LambdaOutput t) = Some (LambdaOutput t') ∧
        fixed_post cs (concat (map (λ c, concat (render c.1 c.2)) calls)) t t'.
Proof.
  induction calls as [|[fmtstr args] calls IH]; intros t cs Hwf Hcs.
  - exists t. split; [done|]. by apply fixed_post_nil.
  - destruct (fixed_deliver (render fmtstr args) t cs Hwf Hcs) as (t1 & Hdel & Hpost).
    pose proof Hpost as (Hwf1 & _ & _ & Hc1 & _).
    destruct (IH t1 _ Hwf1 Hc1) as (t' & Hrest & Hpost').
    exists t'. split.
    + simpl. unfold lambda_output_format, format_to, Fmt.vformat_to. simpl.
      rewrite Hdel. simpl. exact Hrest.
    + simpl. by eapply fixed_post_trans.
Qed.

Lemma buffer_format_each calls : ∀ t cs,
  buffer_wf t → contents t = Some cs →
  ∃ t', format_each calls (LambdaOutput t) = Some (LambdaOutput t') ∧
        buffer_post cs (concat (map (λ c, concat (render c.1 c.2)) calls)) t t'.
Proof.
  induction calls as [|[fmtstr args] calls IH]; intros t cs Hwf Hcs.
  - exists t. split; [done|]. by apply buffer_post_nil.
  - destruct (buffer_deliver (render fmtstr args) t cs Hwf Hcs) as (t1 & Hdel & Hpost).
    pose proof Hpost as (Hwf1 & _ & Hc1).
    destruct (IH t1 _ Hwf1 Hc1) as (t' & Hrest & Hpost').
    exists t'. split.
    + simpl. unfold lambda_output_format, format_to, Fmt.vformat_to. simpl.
      rewrite Hdel. simpl. exact Hrest.
    + simpl. by eapply buffer_post_trans.
Qed.

(** X12.  A callback wrapped by [format_lambda] whose body issues
    [output.format] calls leaves on the sink it is executed on what the same
    [format] calls on the target itself leave, as far as a caller can see,
    although [format_lambda_output::format] does not test the overflow flag:
    on an overflowed fixed target its bytes go to the discard array. *)
Theorem lambda_formats_like_the_target t calls :
  target_wf t →
  ∃ t1 t2,
    execute (format_lambda (λ output calls, format_each calls output) calls) t = Some t1 ∧
    run_writes (map (λ c, w_format c.1 c.2) calls) t = Some t2 ∧
    target_wf t1 ∧ observe t1 = observe t2.
Proof.
  intros Hwf. unfold execute, format_lambda. simpl.
  unfold target_wf in *. destruct (vptr t) eqn:Hv.
  - destruct (buffer_contents_is_Some t Hwf) as [cs Hcs].
    destruct (buffer_format_each calls t cs Hwf Hcs) as (t1 & -> & Hwf1 & Hso1 & Hc1).
    destruct (buffer_run_writes (map (λ c, w_format c.1 c.2) calls) t cs Hwf Hcs)
      as (t2 & Hr2 & Hwf2 & _ & Hc2).
    rewrite written_bytes_formats in Hc2.
    exists t1, t2. split; [done|]. split; [done|]. split.
    + destruct Hso1 as (-> & _). by rewrite Hv.
    + eapply observe_eq; [done..|]. by rewrite !buffer_has_overflowed.
  - destruct (fixed_contents_is_Some t Hwf) as [cs Hcs].
    destruct (fixed_format_each calls t cs Hwf Hcs)
      as (t1 & -> & Hwf1 & Hso1 & _ & Hc1 & Ho1).
    destruct (fixed_run_writes (map (λ c, w_format c.1 c.2) calls) t cs Hwf Hcs)
      as (t2 & Hr2 & Hwf2 & _ & _ & Hc2 & Ho2).
    rewrite written_bytes_formats in Hc2, Ho2.
    exists t1, t2. split; [done|]. split; [done|]. split.
    + destruct Hso1 as (-> & _). by rewrite Hv.
    + eapply observe_eq; [done..|]. congruence.
Qed.

End Adapter.

(** * The built-in buffer of a [format_buffer] *)

Section BuiltInBuffer.

Context {E : Engine}.

Implicit Types (t : format_target) (ws : list write).

Lemma buffer_to_string t : buffer_wf t → to_string t = contents t.
Proof. intros Hwf. unfold to_string. by rewrite buffer_contents. Qed.

(** X13.  [clear()] empties a [format_buffer] without touching its array:
    the size is zero and [to_string()] is empty, with the same [data()],
    [capacity()] and memory; and what is written after it reads back through
    [to_string()] and [size()] exactly. *)
Theorem clear_then_write_reads_back t ws :
  buffer_wf t →
  ∃ t1 t2,
    format_buffer_clear t = Some t1 ∧
    format_buffer_size t1 = 0 ∧ to_string t1 = Some [] ∧
    format_buffer_data t1 = format_buffer_data t ∧
    format_buffer_capacity t1 = format_buffer_capacity t ∧
    mem t1 = mem t ∧
    run_writes ws t1 = Some t2 ∧
    to_string t2 = Some (written_bytes ws) ∧
    format_buffer_size t2 = length (written_bytes ws).
Proof.
  intros Hwf. destruct (buffer_clear t Hwf) as (Hwf1 & _).
  assert (contents (Fmt.clear t) = Some []) as Hc1.
  { rewrite buffer_contents by done. simpl. pose proof Hwf as [_ _ (l & Hl & Hn) _].
    unfold load_bytes. rewrite Hl. simpl. case_decide; [|lia]. by rewrite take_0. }
  destruct (buffer_run_writes ws _ [] Hwf1 Hc1) as (t2 & Hrun & Hwf2 & _ & Hc2).
  exists (Fmt.clear t), t2. do 2 (split; [done|]).
  split; [by rewrite buffer_to_string|]. do 3 (split; [done|]).
  split; [exact Hrun|]. split; [by rewrite buffer_to_string|].
  simpl in Hc2. unfold format_buffer_size. rewrite <- buffer_size_is by done.
  unfold contents in Hc2. by apply load_bytes_length in Hc2.
Qed.

Lemma store_bytes_delete (m m' : memory) p bs :
  store_bytes m p bs = Some m' → delete (blk p) m' = delete (blk p) m.
Proof.
  unfold store_bytes. destruct (m !! blk p) as [l|]; simpl; [|done].
  case_decide; [|done]. intros [= <-]. apply delete_insert_eq.
Qed.

Lemma grown_in_place_refl t : buffer_wf t → grown_in_place 0 t t.
Proof.
  intros Hwf. split; [done|]. split; [|done].
  destruct (target t). simpl. f_equal. lia.
Qed.

Lemma grown_in_place_trans n1 n2 t t1 t2 :
  grown_in_place n1 t t1 → grown_in_place n2 t1 t2 → grown_in_place (n1 + n2) t t2.
Proof.
  intros (_ & Ht1 & Hm1) (Hwf2 & Ht2 & Hm2). rewrite Ht1 in Ht2, Hm2. simpl in *.
  split; [done|]. split; [|congruence]. rewrite Ht2. f_equal. lia.
Qed.

Lemma buffer_append_in_place input t :
  buffer_wf t → size_ (target t) + length input ≤ capacity_ (target t) →
  ∃ t', Fmt.append input t = Some t' ∧ grown_in_place (length input) t t'.
Proof.
  intros Hwf Hfit. unfold Fmt.append. destruct input as [|b input'] eqn:Hin.
  { exists t. split; [done|]. by apply grown_in_place_refl. }
  rewrite <- Hin in *. assert (input ≠ []) as Hne by (by rewrite Hin).
  assert (0 < length input) as Hlen by (rewrite Hin; simpl; lia).
  assert (∃ fuel, length input = S fuel) as [fuel Hfuel]
    by (exists (pred (length input)); lia).
  replace (Fmt.append_loop (length input) input t)
    with (Fmt.append_loop (S fuel) input t) by (by rewrite Hfuel).
  rewrite append_loop_round by done.
  unfold Fmt.try_reserve. case_decide; [lia|]. simpl. case_decide; [lia|].
  rewrite take_ge, drop_ge by lia.
  pose proof Hwf as [Hc Hf Hr Hs].
  destruct (store_bytes_is_Some (mem t) (ptr_add (ptr_ (target t)) (size_ (target t)))
              input) as [m Hm].
  { apply valid_range_add. eapply valid_range_le; [exact Hr | lia]. }
  rewrite Hm. simpl. eexists. split; [by destruct fuel|].
  split; [|split; [done|]].
  - split; simpl; [done | done | by eapply store_bytes_valid | lia].
  - simpl. exact (store_bytes_delete _ _ _ _ Hm).
Qed.

Lemma buffer_deliver_in_place pieces : ∀ t,
  buffer_wf t → size_ (target t) + length (concat pieces) ≤ capacity_ (target t) →
  ∃ t', Fmt.deliver pieces t = Some t' ∧ grown_in_place (length (concat pieces)) t t'.
Proof.
  induction pieces as [|piece pieces IH]; intros t Hwf Hfit.
  - exists t. split; [done|]. by apply grown_in_place_refl.
  - simpl in Hfit. rewrite length_app in Hfit.
    destruct (buffer_append_in_place piece t Hwf ltac:(lia)) as (t1 & Happ & Hg1).
    pose proof Hg1 as (Hwf1 & Ht1 & _).
    destruct (IH t1 Hwf1) as (t' & Hdel & Hg').
    { rewrite Ht1. simpl. lia. }
    exists t'. split.
    + simpl. rewrite Happ. exact Hdel.
    + simpl. rewrite length_app. by eapply grown_in_place_trans.
Qed.

Lemma buffer_run_write_in_place w t :
  buffer_wf t → size_ (target t) + length (write_bytes w) ≤ capacity_ (target t) →
  ∃ t', run_write w t = Some t' ∧ grown_in_place (length (write_bytes w)) t t'.
Proof.
  intros Hwf Hfit. pose proof (buffer_has_overflowed t Hwf) as Hov.
  destruct w; simpl in *; unfold append_sv, append, push_back, format, vformat;
    rewrite Hov.
  - by apply buffer_append_in_place.
  - by apply buffer_append_in_place.
  - rewrite push_back_is_append; [by apply (buffer_append_in_place [c])|].
    intros t1 Hres.
    destruct (buffer_try_reserve (size_ (target t) + 1) t Hwf)
      as (t1' & Hres' & _ & _ & Hsz & _ & Hcap & _).
    rewrite Hres in Hres'. injection Hres' as <-. lia.
  - by apply buffer_deliver_in_place.
  - by apply buffer_deliver_in_place.
Qed.

(** X14.  Writes that fit into the capacity of a buffer-backed target are
    done in place: [data()] and [capacity()] stay, nothing is allocated or
    released (the rest of the memory is as it was), and [size()] grows by the
    number of bytes written. *)
Theorem writes_within_capacity_stay_in_place ws t :
  buffer_wf t →
  size t + length (written_bytes ws) ≤ format_buffer_capacity t →
  ∃ t', run_writes ws t = Some t' ∧
        data t' = data t ∧
        format_buffer_capacity t' = format_buffer_capacity t ∧
        size t' = size t + length (written_bytes ws) ∧
        delete (blk (data t)) (mem t') = delete (blk (data t)) (mem t).
Proof.
  intros Hwf. rewrite buffer_size_is, buffer_data by done.
  unfold format_buffer_capacity. intros Hfit.
  assert (∃ t', run_writes ws t = Some t' ∧
                grown_in_place (length (written_bytes ws)) t t') as (t' & Hrun & Hg).
  { revert t Hwf Hfit. unfold written_bytes, run_writes.
    induction ws as [|w ws IH]; intros t Hwf Hfit.
    - exists t. split; [done|]. by apply grown_in_place_refl.
    - simpl in Hfit. rewrite length_app in Hfit.
      destruct (buffer_run_write_in_place w t Hwf ltac:(lia)) as (t1 & Hr1 & Hg1).
      pose proof Hg1 as (Hwf1 & Ht1 & _).
      destruct (IH t1 Hwf1) as (t' & Hrest & Hg').
      { rewrite Ht1. simpl. lia. }
      exists t'. split.
      + simpl. rewrite Hr1. exact Hrest.
      + simpl. rewrite length_app. by eapply grown_in_place_trans. }
  destruct Hg as (Hwf' & Ht' & Hm').
  exists t'. split; [exact Hrun|].
  rewrite buffer_size_is, buffer_data by done. rewrite Ht'. simpl. done.
Qed.

Lemma to_size_t_bound z : (Z.of_nat (to_size_t z) < 2 ^ 64)%Z.
Proof.
  unfold to_size_t. pose proof (Z.mod_pos_bound z (2 ^ 64) ltac:(lia)). lia.
Qed.

Lemma buffer_try_reserve_capacity n t t1 :
  buffer_wf t → Fmt.try_reserve n t = Some t1 →
  capacity_ (target t1) ≤ (2 * capacity_ (target t)) `max` n.
Proof.
  intros [Hc _ _ _]. unfold Fmt.try_reserve, Fmt.grow, Fmt.memory_buffer_grow.
  rewrite Hc. case_decide.
  - destruct (load_bytes _ _ _); simpl; [|done].
    destruct (store_bytes _ _ _); simpl; [|done]. intros [= <-].
    cbn [target capacity_ with_target with_mem Fmt.set].
    change (fst (Nat.divmod (capacity_ (target t)) 1 0 1)) with (capacity_ (target t) / 2).
    pose proof (Nat.Div0.div_le_upper_bound (capacity_ (target t)) 2 (capacity_ (target t))
                  ltac:(lia)).
    case_decide; lia.
  - intros [= <-]. lia.
Qed.

(** X15.  On a buffer-backed target of capacity below [2^63],
    [append_span_func] reserves [size() + to_reserve], computed in [size_t],
    growing the buffer if that is more than the capacity, and hands the
    writer the [capacity() - size()] bytes after the contents: at least
    [to_reserve] when the sum does not wrap.  When the sum is at most the
    capacity (as when it wraps) nothing is reserved, [data()] and
    [capacity()] stay, and on a full buffer the target is left exactly as it
    is.  What the writer reports is appended: the contents become the old
    contents followed by the bytes the writer stored, [size()] grows by
    their number, and the target does not overflow. *)
Theorem append_span_func_reserves_room t (to_reserve : nat) (func : writer) (cs : list byte) :
  buffer_wf t → contents t = Some cs → exact_writer func →
  (Z.of_nat (2 * format_buffer_capacity t) < 2 ^ 64)%Z →
  ∃ t' room,
    append_span_func to_reserve func t = Some t' ∧
    room = format_buffer_capacity t' - size t ∧
    size_add (size t) to_reserve ≤ format_buffer_capacity t' ∧
    ((Z.of_nat (size t + to_reserve) < 2 ^ 64)%Z → to_reserve ≤ room) ∧
    (size_add (size t) to_reserve ≤ format_buffer_capacity t →
     format_buffer_capacity t' = format_buffer_capacity t ∧ data t' = data t) ∧
    (room = 0 → t' = t) ∧
    has_overflowed t' = false ∧
    size t' = size t + snd (func room) ∧
    contents t' = Some (cs ++ fst (func room)).
Proof.
  intros Hwf Hcs Hexact. rewrite buffer_size_is by done.
  unfold format_buffer_capacity. intros Hbound.
  pose proof Hwf as [_ _ _ Hfill0].
  pose proof (to_size_t_bound (Z.of_nat (size_ (target t)) + Z.of_nat to_reserve)) as Hn.
  fold (size_add (size_ (target t)) to_reserve) in Hn.
  unfold append_span_func.
  destruct (buffer_try_reserve (size_add (size_ (target t)) to_reserve) t Hwf)
    as (t1 & Hres & Hwf1 & Hso & Hsz & Hc1 & Hcap & Hcap0 & Hsame).
  pose proof (buffer_try_reserve_capacity _ _ _ Hwf Hres) as Hup.
  rewrite Hres. simpl.
  pose proof Hwf1 as [_ Hf1 Hr1 Hfill1].
  specialize (Hexact (capacity_ (target t1) - size_ (target t1))).
  case_decide as Hfull.
  - exists t1, 0.
    assert (t1 = t) as -> by (apply Hsame; lia).
    rewrite Hfull in Hexact.
    rewrite Nat.sub_diag in Hexact. destruct Hexact as (Hk & Hk0).
    destruct (func 0) as [stored k]. simpl in *.
    assert (stored = []) as -> by (destruct stored; [done | simpl in *; lia]).
    split; [done|]. split; [lia|]. split; [done|].
    split; [intros Hsmall; rewrite size_add_small in Hcap by done; lia|].
    split; [done|]. split; [done|].
    split; [by apply buffer_has_overflowed|].
    rewrite buffer_size_is by done. split; [lia|].
    by rewrite app_nil_r.
  - exists (with_mem
              (default (mem t1)
                 (store_bytes (mem t1) (ptr_add (ptr_ (target t1)) (size_ (target t1)))
                    (fst (func (capacity_ (target t1) - size_ (target t1))))))
              (Fmt.set_size
                 (size_ (target t1) + snd (func (capacity_ (target t1) - size_ (target t1))))
                 t1)),
           (capacity_ (target t1) - size_ (target t1)).
    destruct (func (capacity_ (target t1) - size_ (target t1))) as [stored k]. simpl in *.
    destruct Hexact as (-> & Hk).
    destruct (store_bytes_is_Some (mem t1) (ptr_add (ptr_ (target t1)) (size_ (target t1)))
                stored) as [m Hm].
    { apply valid_range_add. eapply valid_range_le; [exact Hr1 | lia]. }
    rewrite Hm. simpl.
    pose proof (buffer_with_mem _ _ _ _ Hwf1 Hm) as Hwf2.
    rewrite (size_add_small (size_ (target t1))) by lia.
    destruct (buffer_try_resize (size_ (target t1) + length stored) _ Hwf2)
      as (t' & Hrs & Hwf' & _ & Hfit).
    simpl in Hfit. rewrite Hfit in * by lia.
    split; [exact Hrs|]. split; [by rewrite Hsz|]. split; [done|].
    split; [intros Hsmall; rewrite size_add_small in Hcap by done; lia|].
    split.
    { intros Hnone. rewrite (Hsame Hnone). split; [done|].
      by rewrite !buffer_data by (done || by rewrite <- (Hsame Hnone)). }
    split; [lia|].
    split; [by apply buffer_has_overflowed|].
    rewrite buffer_size_is, buffer_contents by done. simpl.
    split; [by rewrite Hsz|].
    rewrite Hcs, buffer_contents in Hc1 by done.
    exact (load_bytes_store_app _ _ _ _ _ _ Hm Hc1).
Qed.

(** X16.  On a buffer-backed target of capacity below [2^63],
    [append_ptr_last_func] reserves [size() + to_reserve], computed in
    [size_t], growing the buffer if that is more than the capacity.  If the
    capacity is then more than [size() + 1], the writer is handed the region
    from the end of the contents to [last], the last byte of the buffer, and
    the bytes before the pointer it returns are appended, which leaves at
    least one byte free; otherwise the writer is not run and only the
    reservation has happened.  When the sum does not wrap and
    [to_reserve >= 2], the writer is run and the region, [last] included, has
    at least [to_reserve] bytes. *)
Theorem append_ptr_last_func_reserves_room t (to_reserve : nat) (func : writer)
    (cs : list byte) :
  buffer_wf t → contents t = Some cs →
  ptr_last_writer_ok func →
  (∀ room, snd (func room) ≤ room ∧ snd (func room) ≤ length (fst (func room))) →
  (Z.of_nat (2 * format_buffer_capacity t) < 2 ^ 64)%Z →
  ∃ t',
    append_ptr_last_func to_reserve func t = Some t' ∧
    size_add (size t) to_reserve ≤ format_buffer_capacity t' ∧
    (if decide (size t + 1 < format_buffer_capacity t')
     then size t' = size t + snd (func (format_buffer_capacity t' - 1 - size t)) ∧
          size t' < format_buffer_capacity t' ∧
          contents t'
          = Some (cs ++ take (snd (func (format_buffer_capacity t' - 1 - size t)))
                             (fst (func (format_buffer_capacity t' - 1 - size t))))
     else Fmt.try_reserve (size_add (size t) to_reserve) t = Some t' ∧
          size t' = size t ∧ contents t' = Some cs) ∧
    ((Z.of_nat (size t + to_reserve) < 2 ^ 64)%Z → 2 ≤ to_reserve →
     size t + 1 < format_buffer_capacity t' ∧
     to_reserve ≤ format_buffer_capacity t' - size t).
Proof.
  intros Hwf Hcs Hok Hused. rewrite buffer_size_is by done.
  unfold format_buffer_capacity. intros Hbound.
  pose proof Hwf as [_ _ _ Hfill0].
  pose proof (to_size_t_bound (Z.of_nat (size_ (target t)) + Z.of_nat to_reserve)) as Hn.
  fold (size_add (size_ (target t)) to_reserve) in Hn.
  unfold append_ptr_last_func.
  destruct (buffer_try_reserve (size_add (size_ (target t)) to_reserve) t Hwf)
    as (t1 & Hres & Hwf1 & Hso & Hsz & Hc1 & Hcap & Hcap0 & Hsame).
  pose proof (buffer_try_reserve_capacity _ _ _ Hwf Hres) as Hup.
  rewrite Hres. simpl.
  pose proof Hwf1 as [_ Hf1 Hr1 Hfill1].
  case_decide as Hlast.
  2:{ exists t1. split; [done|]. split; [done|]. split.
      - case_decide; [simpl in *; lia|]. split; [done|].
        rewrite buffer_size_is by done. split; [done|]. by rewrite Hc1.
      - intros Hsmall Htwo. rewrite size_add_small in Hcap by done. simpl in *. lia. }
  replace (Z.to_nat (ptr_diff (ptr_pred (ptr_add (ptr_ (target t1)) (capacity_ (target t1))))
                       (ptr_add (ptr_ (target t1)) (size_ (target t1)))))
    with (capacity_ (target t1) - 1 - size_ (target t1)) by (unfold ptr_diff; simpl; lia).
  set (room := capacity_ (target t1) - 1 - size_ (target t1)).
  specialize (Hok room). specialize (Hused room).
  exists (default t1
            (m ← store_bytes (mem t1) (ptr_add (ptr_ (target t1)) (size_ (target t1)))
                   (fst (func room));
             Fmt.try_resize (size_ (target t1) + snd (func room)) (with_mem m t1))).
  assert (size_ (target t1) + 1 < capacity_ (target t1)) as Hfree by (simpl in Hlast; lia).
  destruct (func room) as [stored k] eqn:Hfunc. simpl in Hok, Hused. simpl.
  destruct (store_bytes_is_Some (mem t1) (ptr_add (ptr_ (target t1)) (size_ (target t1)))
              stored) as [m Hm].
  { apply valid_range_add. eapply valid_range_le; [exact Hr1 | lia]. }
  rewrite Hm. simpl.
  pose proof (buffer_with_mem _ _ _ _ Hwf1 Hm) as Hwf2.
  replace (to_size_t (ptr_diff (ptr_add (ptr_add (ptr_ (target t1)) (size_ (target t1))) k)
                        (ptr_ (target t1))))
    with (size_ (target t1) + k).
  2:{ unfold to_size_t, ptr_diff. simpl. rewrite Z.mod_small by lia. lia. }
  destruct (buffer_try_resize (size_ (target t1) + k) _ Hwf2)
    as (t' & Hrs & Hwf' & _ & Hfit).
  simpl in Hfit. rewrite Hfit in * by lia. rewrite Hrs. simpl.
  split; [done|]. split; [done|]. split.
  - case_decide; [|lia]. rewrite <- Hsz. fold room. rewrite Hfunc. simpl.
    rewrite buffer_size_is, buffer_contents by done. simpl.
    split; [done|]. split; [lia|].
    rewrite Hcs, buffer_contents in Hc1 by done.
    pose proof (load_bytes_store_app _ _ _ _ _ _ Hm Hc1) as Hall.
    rewrite (load_bytes_take _ _ _ (size_ (target t1) + k) _ Hall) by lia. f_equal.
    apply load_bytes_length in Hc1.
    rewrite take_app_ge by lia. rewrite Hc1. f_equal. f_equal. lia.
  - intros Hsmall Htwo. rewrite size_add_small in Hcap by done. lia.
Qed.

End BuiltInBuffer.

(** * The further properties on concrete inputs *)

Section FurtherWitnesses.

Import Example.

#[local] Existing Instance Example.engine.

Ltac range_evaluated :=
  eexists; split; [vm_compute; reflexivity | vm_compute; lia].

Ltac fixed_wf_evaluated :=
  split;
  [ reflexivity | reflexivity | range_evaluated | range_evaluated
  | vm_compute; lia | vm_compute; repeat split; lia ].

Ltac buffer_wf_evaluated :=
  split; [ reflexivity | reflexivity | range_evaluated | vm_compute; lia ].

Ltac writers_evaluated :=
  repeat constructor; intros room; simpl; rewrite length_take; simpl; lia.

Lemma fixed_target_stores_within_bounds_witness :
  (fixed_wf fixed5 ∧ Forall op_ok some_ops) ∧
  (∃ t', run_ops some_ops fixed5 = Some t' ∧
         changes_within (buffer_ptr fixed5) (buffer_size fixed5) (blk (discard fixed5))
           (mem fixed5) (mem t') ∧
         same_shape (mem fixed5) (mem t')).
Proof.
  assert (fixed_wf fixed5) as Hwf by fixed_wf_evaluated.
  assert (Forall op_ok some_ops) as Hok by writers_evaluated.
  split; [exact (conj Hwf Hok)|].
  exact (fixed_target_stores_within_bounds fixed5 some_ops Hwf Hok).
Defined.

Lemma append_span_func_gets_the_rest_witness :
  (fixed_wf fixed5 ∧ has_overflowed fixed5 = false ∧ contents fixed5 = Some [] ∧
   size fixed5 < buffer_size fixed5 ∧ (Z.of_nat (buffer_size fixed5) < 2 ^ 64)%Z ∧
   exact_writer one_byte) ∧
  (∃ t', append_span_func 9 one_byte fixed5 = Some t' ∧
         has_overflowed t' = false ∧
         size t' = size fixed5 + snd (one_byte (buffer_size fixed5 - size fixed5)) ∧
         contents t' = Some ([] ++ fst (one_byte (buffer_size fixed5 - size fixed5)))).
Proof.
  assert (fixed_wf fixed5) as Hwf by fixed_wf_evaluated.
  assert (contents fixed5 = Some []) as Hcs by (vm_compute; reflexivity).
  assert (size fixed5 < buffer_size fixed5) as Hfree by (vm_compute; lia).
  assert (Z.of_nat (buffer_size fixed5) < 2 ^ 64)%Z as Hbound by (vm_compute; reflexivity).
  assert (exact_writer one_byte) as Hfunc.
  { intros room. split; [reflexivity|]. simpl. rewrite length_take. simpl. lia. }
  split; [exact (conj Hwf (conj eq_refl (conj Hcs (conj Hfree (conj Hbound Hfunc)))))|].
  exact (append_span_func_gets_the_rest fixed5 9 one_byte [] Hwf eq_refl Hcs Hfree Hbound
           Hfunc).
Defined.

Lemma append_span_func_on_full_target_witness :
  (fixed_wf full_fixed ∧ has_overflowed full_fixed = false ∧
   size full_fixed = buffer_size full_fixed ∧ span_writer_ok one_byte) ∧
  (∃ t', append_span_func 1 one_byte full_fixed = Some t' ∧
         size t' = size full_fixed ∧ contents t' = contents full_fixed ∧
         data t' = data full_fixed ∧
         (if decide (size_add (size full_fixed) 1 ≤ buffer_size full_fixed)
          then t' = full_fixed else has_overflowed t' = true) ∧
         ((Z.of_nat (size full_fixed + 1) < 2 ^ 64)%Z →
          if decide (1 = 0) then t' = full_fixed else has_overflowed t' = true)).
Proof.
  assert (fixed_wf full_fixed) as Hwf by fixed_wf_evaluated.
  assert (size full_fixed = buffer_size full_fixed) as Hfull by (vm_compute; reflexivity).
  assert (span_writer_ok one_byte) as Hfunc.
  { intros room. simpl. rewrite length_take. simpl. lia. }
  split; [exact (conj Hwf (conj eq_refl (conj Hfull Hfunc)))|].
  exact (append_span_func_on_full_target full_fixed 1 one_byte Hwf eq_refl Hfull Hfunc).
Defined.

Lemma append_ptr_last_func_keeps_a_byte_witness :
  (fixed_wf fixed5 ∧ has_overflowed fixed5 = false ∧ contents fixed5 = Some [] ∧
   size fixed5 + 1 < buffer_size fixed5 ∧ (Z.of_nat (buffer_size fixed5) < 2 ^ 64)%Z ∧
   ptr_last_writer_ok one_byte_z ∧
   snd (one_byte_z (buffer_size fixed5 - 1 - size fixed5))
     ≤ buffer_size fixed5 - 1 - size fixed5 ∧
   snd (one_byte_z (buffer_size fixed5 - 1 - size fixed5))
     ≤ length (fst (one_byte_z (buffer_size fixed5 - 1 - size fixed5)))) ∧
  (∃ t', append_ptr_last_func 4 one_byte_z fixed5 = Some t' ∧
         has_overflowed t' = false ∧
         size t' = size fixed5 + snd (one_byte_z (buffer_size fixed5 - 1 - size fixed5)) ∧
         size t' < buffer_size t' ∧
         contents t'
         = Some ([] ++ take (snd (one_byte_z (buffer_size fixed5 - 1 - size fixed5)))
                            (fst (one_byte_z (buffer_size fixed5 - 1 - size fixed5)))) ∧
         load_bytes (mem t') (data t')
           (size fixed5 + length (fst (one_byte_z (buffer_size fixed5 - 1 - size fixed5))))
         = Some ([] ++ fst (one_byte_z (buffer_size fixed5 - 1 - size fixed5)))).
Proof.
  assert (fixed_wf fixed5) as Hwf by fixed_wf_evaluated.
  assert (contents fixed5 = Some []) as Hcs by (vm_compute; reflexivity).
  assert (size fixed5 + 1 < buffer_size fixed5) as Hfree by (vm_compute; lia).
  assert (Z.of_nat (buffer_size fixed5) < 2 ^ 64)%Z as Hbound by (vm_compute; reflexivity).
  assert (ptr_last_writer_ok one_byte_z) as Hfunc.
  { intros room. simpl. rewrite length_take. simpl. lia. }
  assert (snd (one_byte_z (buffer_size fixed5 - 1 - size fixed5))
            ≤ buffer_size fixed5 - 1 - size fixed5) as Hin by (vm_compute; lia).
  assert (snd (one_byte_z (buffer_size fixed5 - 1 - size fixed5))
            ≤ length (fst (one_byte_z (buffer_size fixed5 - 1 - size fixed5)))) as Hstored
    by (vm_compute; lia).
  split.
  { exact (conj Hwf (conj eq_refl (conj Hcs (conj Hfree (conj Hbound (conj Hfunc
             (conj Hin Hstored))))))). }
  exact (append_ptr_last_func_keeps_a_byte fixed5 4 one_byte_z [] Hwf eq_refl Hcs Hfree
           Hbound Hfunc Hin Hstored).
Defined.

Lemma append_ptr_last_func_needs_two_bytes_witness :
  (fixed_wf one_left ∧ has_overflowed one_left = false ∧
   size one_left + 1 = buffer_size one_left) ∧
  append_ptr_last_func 4 one_byte_z one_left = Some one_left.
Proof.
  assert (fixed_wf one_left) as Hwf by fixed_wf_evaluated.
  assert (size one_left + 1 = buffer_size one_left) as Hone by (vm_compute; reflexivity).
  split; [exact (conj Hwf (conj eq_refl Hone))|].
  exact (append_ptr_last_func_needs_two_bytes one_left 4 one_byte_z Hwf eq_refl Hone).
Defined.

Lemma finalise_keeps_target_witness :
  fixed_z_wf fixed_z5 ∧
  (∃ z', finalise fixed_z5 = Some (end_ fixed_z5, z') ∧
         store (mem fixed_z5) (end_ fixed_z5) "000"%byte = Some (mem z') ∧
         z' = FixedZ (with_mem (mem z') fixed_z5) (initial_dst fixed_z5) ∧
         observe z' = observe fixed_z5 ∧
         load (mem z') (end_ z') = Some "000"%byte ∧
         fixed_z_wf z' ∧
         finalise z' = Some (end_ fixed_z5, z')).
Proof.
  assert (fixed_z_wf fixed_z5) as Hwf.
  { split; [fixed_wf_evaluated|]. split; [reflexivity | range_evaluated]. }
  split; [exact Hwf|].
  exact (finalise_keeps_target fixed_z5 Hwf).
Defined.

Lemma finalise_terminates_truncated_witness :
  (to_size_t (ptr_diff (Ptr 1 5) dst) = 5 ∧ valid_range caller_memory dst (5 + 1) ∧
   5 < length (written_bytes [w_append hello_world])) ∧
  (∃ z z',
    run_writes_z [w_append hello_world] (format_to_fixed_z dst (Ptr 1 5) caller_memory)
      = Some z ∧
    finalise z = Some (ptr_add dst 5, z') ∧
    has_overflowed z' = true ∧
    load_bytes (mem z') dst (5 + 1)
    = Some (take 5 (written_bytes [w_append hello_world]) ++ ["000"%byte])).
Proof.
  assert (to_size_t (ptr_diff (Ptr 1 5) dst) = 5) as H1 by (vm_compute; reflexivity).
  assert (valid_range caller_memory dst (5 + 1)) as H2 by range_evaluated.
  assert (5 < length (written_bytes [w_append hello_world])) as H3 by (vm_compute; lia).
  split; [exact (conj H1 (conj H2 H3))|].
  exact (finalise_terminates_truncated dst (Ptr 1 5) 5 caller_memory
           [w_append hello_world] H1 H2 H3).
Defined.

Lemma c_str_twice_witness :
  buffer_wf full_buffer ∧
  (∃ p t', c_str full_buffer = Some (p, t') ∧ c_str t' = Some (p, t') ∧
           format_buffer_capacity t' ≠ format_buffer_size t').
Proof.
  assert (buffer_wf full_buffer) as Hwf by buffer_wf_evaluated.
  split; [exact Hwf|].
  exact (c_str_twice full_buffer Hwf).
Defined.

Lemma empty_writes_change_nothing_witness :
  written_bytes empty_writes = [] ∧ run_writes empty_writes full_fixed = Some full_fixed.
Proof.
  assert (written_bytes empty_writes = []) as Hnone by reflexivity.
  split; [exact Hnone|].
  exact (empty_writes_change_nothing empty_writes full_fixed Hnone).
Defined.

Lemma push_back_is_append_of_one_witness :
  target_wf full_fixed ∧ push_back "!"%byte full_fixed = append ["!"%byte] full_fixed.
Proof.
  assert (target_wf full_fixed) as Hwf.
  { unfold target_wf. change (vptr full_fixed) with format_to_fixed_base_class.
    fixed_wf_evaluated. }
  split; [exact Hwf|].
  exact (push_back_is_append_of_one "!"%byte full_fixed Hwf).
Defined.

Lemma writes_seen_by_their_bytes_witness :
  (target_wf one_left ∧ written_bytes exact_fit = written_bytes one_write) ∧
  (∃ t1 t2, run_writes exact_fit one_left = Some t1 ∧
            run_writes one_write one_left = Some t2 ∧
            observe t1 = observe t2).
Proof.
  assert (target_wf one_left) as Hwf.
  { unfold target_wf. change (vptr one_left) with format_to_fixed_base_class.
    fixed_wf_evaluated. }
  assert (written_bytes exact_fit = written_bytes one_write) as Hsame by reflexivity.
  split; [exact (conj Hwf Hsame)|].
  exact (writes_seen_by_their_bytes exact_fit one_write one_left Hwf Hsame).
Defined.

Lemma lambda_formats_like_the_target_witness :
  target_wf one_left ∧
  (∃ t1 t2,
    execute (format_lambda (λ output calls, format_each calls output) some_calls) one_left
      = Some t1 ∧
    run_writes (map (λ c, w_format c.1 c.2) some_calls) one_left = Some t2 ∧
    target_wf t1 ∧ observe t1 = observe t2).
Proof.
  assert (target_wf one_left) as Hwf.
  { unfold target_wf. change (vptr one_left) with format_to_fixed_base_class.
    fixed_wf_evaluated. }
  split; [exact Hwf|].
  exact (lambda_formats_like_the_target one_left some_calls Hwf).
Defined.

Lemma clear_then_write_reads_back_witness :
  buffer_wf full_buffer ∧
  (∃ t1 t2,
    format_buffer_clear full_buffer = Some t1 ∧
    format_buffer_size t1 = 0 ∧ to_string t1 = Some [] ∧
    format_buffer_data t1 = format_buffer_data full_buffer ∧
    format_buffer_capacity t1 = format_buffer_capacity full_buffer ∧
    mem t1 = mem full_buffer ∧
    run_writes exact_fit t1 = Some t2 ∧
    to_string t2 = Some (written_bytes exact_fit) ∧
    format_buffer_size t2 = length (written_bytes exact_fit)).
Proof.
  assert (buffer_wf full_buffer) as Hwf by buffer_wf_evaluated.
  split; [exact Hwf|].
  exact (clear_then_write_reads_back full_buffer exact_fit Hwf).
Defined.

Lemma writes_within_capacity_stay_in_place_witness :
  (buffer_wf roomy_buffer ∧
   size roomy_buffer + length (written_bytes exact_fit) ≤ format_buffer_capacity roomy_buffer) ∧
  (∃ t', run_writes exact_fit roomy_buffer = Some t' ∧
         data t' = data roomy_buffer ∧
         format_buffer_capacity t' = format_buffer_capacity roomy_buffer ∧
         size t' = size roomy_buffer + length (written_bytes exact_fit) ∧
         delete (blk (data roomy_buffer)) (mem t')
         = delete (blk (data roomy_buffer)) (mem roomy_buffer)).
Proof.
  assert (buffer_wf roomy_buffer) as Hwf by buffer_wf_evaluated.
  assert (size roomy_buffer + length (written_bytes exact_fit)
            ≤ format_buffer_capacity roomy_buffer) as Hfit by (vm_compute; lia).
  split; [exact (conj Hwf Hfit)|].
  exact (writes_within_capacity_stay_in_place exact_fit roomy_buffer Hwf Hfit).
Defined.

Lemma append_span_func_reserves_room_witness :
  (buffer_wf full_buffer ∧ contents full_buffer = Some (replicate 6 "."%byte) ∧
   exact_writer one_byte ∧
   (Z.of_nat (2 * format_buffer_capacity full_buffer) < 2 ^ 64)%Z) ∧
  (∃ t' room,
    append_span_func 1 one_byte full_buffer = Some t' ∧
    room = format_buffer_capacity t' - size full_buffer ∧
    size_add (size full_buffer) 1 ≤ format_buffer_capacity t' ∧
    ((Z.of_nat (size full_buffer + 1) < 2 ^ 64)%Z → 1 ≤ room) ∧
    (size_add (size full_buffer) 1 ≤ format_buffer_capacity full_buffer →
     format_buffer_capacity t' = format_buffer_capacity full_buffer ∧
     data t' = data full_buffer) ∧
    (room = 0 → t' = full_buffer) ∧
    has_overflowed t' = false ∧
    size t' = size full_buffer + snd (one_byte room) ∧
    contents t' = Some (replicate 6 "."%byte ++ fst (one_byte room))).
Proof.
  assert (buffer_wf full_buffer) as Hwf by buffer_wf_evaluated.
  assert (contents full_buffer = Some (replicate 6 "."%byte)) as Hcs
    by (vm_compute; reflexivity).
  assert (exact_writer one_byte) as Hfunc.
  { intros room. split; [reflexivity|]. simpl. rewrite length_take. simpl. lia. }
  assert (Z.of_nat (2 * format_buffer_capacity full_buffer) < 2 ^ 64)%Z as Hbound
    by (vm_compute; reflexivity).
  split; [exact (conj Hwf (conj Hcs (conj Hfunc Hbound)))|].
  exact (append_span_func_reserves_room full_buffer 1 one_byte (replicate 6 "."%byte)
           Hwf Hcs Hfunc Hbound).
Defined.

Lemma append_ptr_last_func_reserves_room_witness :
  (buffer_wf full_buffer ∧ contents full_buffer = Some (replicate 6 "."%byte) ∧
   ptr_last_writer_ok one_byte_z ∧
   (∀ room, snd (one_byte_z room) ≤ room ∧
            snd (one_byte_z room) ≤ length (fst (one_byte_z room))) ∧
   (Z.of_nat (2 * format_buffer_capacity full_buffer) < 2 ^ 64)%Z) ∧
  (∃ t',
    append_ptr_last_func 4 one_byte_z full_buffer = Some t' ∧
    size_add (size full_buffer) 4 ≤ format_buffer_capacity t' ∧
    (if decide (size full_buffer + 1 < format_buffer_capacity t')
     then size t'
          = size full_buffer
            + snd (one_byte_z (format_buffer_capacity t' - 1 - size full_buffer)) ∧
          size t' < format_buffer_capacity t' ∧
          contents t'
          = Some (replicate 6 "."%byte
                  ++ take (snd (one_byte_z (format_buffer_capacity t' - 1 - size full_buffer)))
                          (fst (one_byte_z (format_buffer_capacity t' - 1 - size full_buffer))))
     else Fmt.try_reserve (size_add (size full_buffer) 4) full_buffer = Some t' ∧
          size t' = size full_buffer ∧ contents t' = Some (replicate 6 "."%byte)) ∧
    ((Z.of_nat (size full_buffer + 4) < 2 ^ 64)%Z → 2 ≤ 4 →
     size full_buffer + 1 < format_buffer_capacity t' ∧
     4 ≤ format_buffer_capacity t' - size full_buffer)).
Proof.
  assert (buffer_wf full_buffer) as Hwf by buffer_wf_evaluated.
  assert (contents full_buffer = Some (replicate 6 "."%byte)) as Hcs
    by (vm_compute; reflexivity).
  assert (ptr_last_writer_ok one_byte_z) as Hfunc.
  { intros room. simpl. rewrite length_take. simpl. lia. }
  assert (∀ room, snd (one_byte_z room) ≤ room ∧
                  snd (one_byte_z room) ≤ length (fst (one_byte_z room))) as Hused.
  { intros room. simpl. rewrite length_take. simpl. lia. }
  assert (Z.of_nat (2 * format_buffer_capacity full_buffer) < 2 ^ 64)%Z as Hbound
    by (vm_compute; reflexivity).
  split; [exact (conj Hwf (conj Hcs (conj Hfunc (conj Hused Hbound))))|].
  exact (append_ptr_last_func_reserves_room full_buffer 4 one_byte_z (replicate 6 "."%byte)
           Hwf Hcs Hfunc Hused Hbound).
Defined.

End FurtherWitnesses.
